(** * regbus: double-buffered data registers, edge-triggered command
    registers and the compile-time registry built from them.

    The development embeds the headers [regbus/DBReg.hpp],
    [regbus/CmdReg.hpp] and [regbus/Registry.hpp]. Unsigned 32-bit
    quantities are integers of [Z] with the wrap-around written out; the
    two-element arrays [buf_] and [seq_] are pairs indexed by the value of
    [idx_]. *)

From Stdlib Require Import ZArith List Bool Lia Sorted.
Import ListNotations.
Open Scope Z_scope.

(** ** Machine integers and two-slot arrays *)

Definition two32 : Z := 2 ^ 32.

(** Arithmetic on [uint32_t] is modulo 2^32. *)
Definition wrap32 (z : Z) : Z := z mod two32.

(** [T x[2]]: slot 0 and slot 1. The registers only ever index with 0 or
    1 (see [DBReg.wf]); any other index is read here as slot 1. *)
Definition arr2 (A : Type) : Type := (A * A)%type.

Definition at2 {A : Type} (a : arr2 A) (i : Z) : A :=
  if i =? 0 then fst a else snd a.

Definition set2 {A : Type} (a : arr2 A) (i : Z) (x : A) : arr2 A :=
  if i =? 0 then (x, snd a) else (fst a, x).

(** ** DBReg<T> *)

Module DBReg.
Section Payload.
Variable T : Type.
(** The value-initialised payload of [buf_[2]{}]. *)
Variable T0 : T.

Record t : Type := mk {
  buf : arr2 T;
  seq : arr2 Z;
  seq_ctr : Z;
  idx : Z;
  has_ : bool
}.

(** [DBReg() : idx_(0), has_(false)], both stamps stored as 0,
    [seq_ctr_{0}]. *)
Definition init : t :=
  {| buf := (T0, T0); seq := (0, 0); seq_ctr := 0; idx := 0; has_ := false |}.

(** [write(const T &v)], statement by statement. [fetch_add] returns the
    old counter; the counter and the stamp [s] are both the old value plus
    one in [uint32_t]. *)
Definition write (v : T) (r : t) : t :=
  let cur := idx r in
  let nxt := Z.lxor cur 1 in
  let buf' := set2 (buf r) nxt v in
  let s := wrap32 (seq_ctr r + 1) in
  let ctr' := wrap32 (seq_ctr r + 1) in
  let seq' := set2 (seq r) nxt s in
  {| buf := buf'; seq := seq'; seq_ctr := ctr'; idx := nxt; has_ := true |}.

(** The [for (;;)] of [read]: each unit of fuel is one iteration. *)
Fixpoint read_loop (fuel : nat) (r : t) : option (T * Z) :=
  match fuel with
  | O => None
  | S fuel' =>
      let i1 := idx r in
      let s1 := at2 (seq r) i1 in
      let tmp := at2 (buf r) i1 in
      let i2 := idx r in
      if (i1 =? i2) && (s1 =? at2 (seq r) i1)
      then Some (tmp, s1)
      else read_loop fuel' r
  end.

(** [read(T &out, uint32_t *out_seq)]: the caller's [out] and the cell
    behind [out_seq] ([None] for [nullptr]) are threaded through, so that
    a failed read visibly leaves them alone. The outer [option] is [None]
    only when the loop runs out of fuel. *)
Definition read (fuel : nat) (r : t) (out : T) (out_seq : option Z)
  : option (bool * T * option Z) :=
  if negb (has_ r) then Some (false, out, out_seq)
  else match read_loop fuel r with
       | Some (tmp, s1) =>
           Some (true, tmp, match out_seq with
                            | Some _ => Some s1
                            | None => None
                            end)
       | None => None
       end.

(** What a call of [read] returns, without the out-parameters. *)
Definition read_ok (fuel : nat) (r : t) (out : T) (out_seq : option Z)
  : option bool :=
  match read fuel r out out_seq with
  | Some (ok, _, _) => Some ok
  | None => None
  end.

Definition has (r : t) : bool := has_ r.

(** The class invariant on the active index. *)
Definition wf (r : t) : Prop := idx r = 0 \/ idx r = 1.

(** A register after the writes [vs], oldest first. *)
Definition writes (vs : list T) (r : t) : t :=
  fold_left (fun r v => write v r) vs r.

(** Calls on one register, each running to completion. *)
Inductive op : Type :=
| OpWrite (v : T)
| OpRead.

(** The sequence numbers handed out by the successful reads of a run of
    calls, in call order. *)
Fixpoint read_seqs (fuel : nat) (ops : list op) (r : t) : list Z :=
  match ops with
  | [] => []
  | OpWrite v :: ops' => read_seqs fuel ops' (write v r)
  | OpRead :: ops' =>
      match read fuel r T0 (Some 0) with
      | Some (true, _, Some s) => s :: read_seqs fuel ops' r
      | _ => read_seqs fuel ops' r
      end
  end.

Definition is_write (o : op) : bool :=
  match o with OpWrite _ => true | OpRead => false end.

Definition count_writes (ops : list op) : Z :=
  Z.of_nat (length (filter is_write ops)).

End Payload.

Arguments mk {T}.
Arguments buf {T}.
Arguments seq {T}.
Arguments seq_ctr {T}.
Arguments idx {T}.
Arguments has_ {T}.
Arguments init {T}.
Arguments write {T}.
Arguments read_loop {T}.
Arguments read {T}.
Arguments read_ok {T}.
Arguments has {T}.
Arguments wf {T}.
Arguments writes {T}.
Arguments OpWrite {T}.
Arguments OpRead {T}.
Arguments read_seqs {T}.
Arguments is_write {T}.
Arguments count_writes {T}.
End DBReg.

(** ** CmdReg<T> *)

Module CmdReg.
Section Payload.
Variable T : Type.
(** The value-initialised [val_{}]. *)
Variable T0 : T.

Record t : Type := mk {
  val : T;
  ready : bool
}.

Definition init : t := {| val := T0; ready := false |}.

Definition post (v : T) (r : t) : t :=
  {| val := v; ready := true |}.

(** [consume(T &out)]: the result, the caller's [out] afterwards and the
    register afterwards. *)
Definition consume (r : t) (out : T) : bool * T * t :=
  if negb (ready r) then (false, out, r)
  else (true, val r, {| val := val r; ready := false |}).

Definition pending (r : t) : bool := ready r.

End Payload.

Arguments mk {T}.
Arguments val {T}.
Arguments ready {T}.
Arguments init {T}.
Arguments post {T}.
Arguments consume {T}.
Arguments pending {T}.
End CmdReg.

(** ** Registry<Key, Traits, Keys...> *)

(** [enum class Kind { Data, Cmd }]. *)
Inductive Kind : Type :=
| Data
| Cmd.

Module Registry.
Section Traits.
(** The key enumeration, and [Traits<K>::type], [Traits<K>::kind]. Keys
    are template arguments, compared by the compiler. *)
Variable Key : Type.
Variable Key_eq_dec : forall a b : Key, {a = b} + {a <> b}.
Variable value_t : Key -> Type.
Variable kind : Key -> Kind.
(** Value-initialisation of each payload type. *)
Variable zero : forall K : Key, value_t K.

(** [detail::index_of]: 0 on a match at the head, one more than the index
    in the tail otherwise; the empty pack is the [static_assert] failure,
    here [None]. *)
Fixpoint index_of (K : Key) (Keys : list Key) : option nat :=
  match Keys with
  | [] => None
  | Head :: Tail =>
      if Key_eq_dec K Head then Some O
      else match index_of K Tail with
           | Some i => Some (S i)
           | None => None
           end
  end.

(** [detail::storage_for]: [CmdReg<T>] when the kind is [Cmd], [DBReg<T>]
    otherwise. *)
Definition storage_for (k : Kind) (T : Type) : Type :=
  match k with
  | Cmd => CmdReg.t T
  | Data => DBReg.t T
  end.

Definition storage_t (K : Key) : Type := storage_for (kind K) (value_t K).

(** [std::tuple<storage_t<Keys>...>]: one member per listed key, in
    order. *)
Fixpoint tuple (Keys : list Key) : Type :=
  match Keys with
  | [] => unit
  | K :: Tail => (storage_t K * tuple Tail)%type
  end.

(** Default construction of one member and of the whole tuple. *)
Definition storage_init (K : Key) : storage_t K :=
  match kind K as k return storage_for k (value_t K) with
  | Data => DBReg.init (zero K)
  | Cmd => CmdReg.init (zero K)
  end.

Fixpoint init (Keys : list Key) : tuple Keys :=
  match Keys with
  | [] => tt
  | K :: Tail => (storage_init K, init Tail)
  end.

(** [cget<K>()], that is [std::get<idx<K>()>(storage_)]: the member at the
    position [index_of] computes, which is the first member whose key is
    [K]; its type is [storage_t<K>] because the key there is [K]. [None]
    when [index_of] has no value. *)
Fixpoint get (K : Key) (Keys : list Key) : tuple Keys -> option (storage_t K) :=
  match Keys with
  | [] => fun _ => None
  | Head :: Tail => fun st =>
      match Key_eq_dec K Head with
      | left e => Some (eq_rect_r storage_t (fst st) e)
      | right _ => get K Tail (snd st)
      end
  end.

(** A member function run through the reference [get<K>()] returns:
    the member at [idx<K>()] is replaced by what the function leaves, the
    other members are not touched. *)
Fixpoint update (K : Key) (Keys : list Key) (f : storage_t K -> storage_t K)
  : tuple Keys -> tuple Keys :=
  match Keys with
  | [] => fun st => st
  | Head :: Tail => fun st =>
      match Key_eq_dec K Head with
      | left e =>
          (eq_rect K storage_t (f (eq_rect_r storage_t (fst st) e)) Head e,
           snd st)
      | right _ => (fst st, update K Tail f (snd st))
      end
  end.

(** The two views of a member: it is a [DBReg] exactly when the key's kind
    is [Data] and a [CmdReg] exactly when it is [Cmd]. *)
Definition as_data (K : Key) : storage_t K -> option (DBReg.t (value_t K)) :=
  match kind K as k
        return storage_for k (value_t K) -> option (DBReg.t (value_t K)) with
  | Data => fun r => Some r
  | Cmd => fun _ => None
  end.

Definition as_cmd (K : Key) : storage_t K -> option (CmdReg.t (value_t K)) :=
  match kind K as k
        return storage_for k (value_t K) -> option (CmdReg.t (value_t K)) with
  | Data => fun _ => None
  | Cmd => fun r => Some r
  end.

Definition on_data (K : Key)
    (f : DBReg.t (value_t K) -> DBReg.t (value_t K))
  : storage_t K -> storage_t K :=
  match kind K as k
        return storage_for k (value_t K) -> storage_for k (value_t K) with
  | Data => fun r => f r
  | Cmd => fun r => r
  end.

Definition on_cmd (K : Key)
    (f : CmdReg.t (value_t K) -> CmdReg.t (value_t K))
  : storage_t K -> storage_t K :=
  match kind K as k
        return storage_for k (value_t K) -> storage_for k (value_t K) with
  | Data => fun r => r
  | Cmd => fun r => f r
  end.

(** [std::enable_if_t<kind<K> == Kind::Data>] and its [Cmd] twin. *)
Definition is_data (K : Key) : bool :=
  match kind K with Data => true | Cmd => false end.

Definition is_cmd (K : Key) : bool :=
  match kind K with Data => false | Cmd => true end.

Definition declared (K : Key) (Keys : list Key) : bool :=
  match index_of K Keys with Some _ => true | None => false end.

(** The per-key operations. [None] stands for a call the compiler
    rejects (wrong kind, key not in the list); for [read] it is also the
    loop of [DBReg::read] running out of fuel. *)
Definition write (K : Key) (Keys : list Key) (v : value_t K)
    (st : tuple Keys) : option (tuple Keys) :=
  if is_data K && declared K Keys
  then Some (update K Keys (on_data K (DBReg.write v)) st)
  else None.

Definition read (fuel : nat) (K : Key) (Keys : list Key) (st : tuple Keys)
    (out : value_t K) (seq : option Z)
  : option (bool * value_t K * option Z) :=
  match get K Keys st with
  | Some r =>
      match as_data K r with
      | Some d => DBReg.read fuel d out seq
      | None => None
      end
  | None => None
  end.

Definition has (K : Key) (Keys : list Key) (st : tuple Keys) : option bool :=
  match get K Keys st with
  | Some r =>
      match as_data K r with
      | Some d => Some (DBReg.has d)
      | None => None
      end
  | None => None
  end.

Definition post (K : Key) (Keys : list Key) (v : value_t K)
    (st : tuple Keys) : option (tuple Keys) :=
  if is_cmd K && declared K Keys
  then Some (update K Keys (on_cmd K (CmdReg.post v)) st)
  else None.

(** [consume<K>(out)]: the result, [out] afterwards and the registry
    afterwards. *)
Definition consume (K : Key) (Keys : list Key) (st : tuple Keys)
    (out : value_t K) : option (bool * value_t K * tuple Keys) :=
  match get K Keys st with
  | Some r =>
      match as_cmd K r with
      | Some c =>
          let '(ok, out', c') := CmdReg.consume c out in
          Some (ok, out', update K Keys (on_cmd K (fun _ => c')) st)
      | None => None
      end
  | None => None
  end.

(** [bytes()] is [sizeof(Registry)]: the size and layout of the object are
    the compiler's, and have no counterpart here. *)

(** What the callers of key [K] can observe of a registry: the member
    itself and the results of [read], [has] and [consume] on it. [st'] is
    undisturbed at [K] with respect to [st] when all of these agree. *)
Definition undisturbed (K : Key) (Keys : list Key) (st st' : tuple Keys)
  : Prop :=
  get K Keys st' = get K Keys st
  /\ (forall (fuel : nat) (out : value_t K) (seq : option Z),
        read fuel K Keys st' out seq = read fuel K Keys st out seq)
  /\ has K Keys st' = has K Keys st
  /\ (forall out : value_t K,
        option_map fst (consume K Keys st' out)
        = option_map fst (consume K Keys st out)).

End Traits.
End Registry.

(** The registry of the tests [Registry.DataRoundTrip] and
    [Registry.CommandConsume]: keys [A], [B] and [CMD_GO];
    [A] holds an [int], [B] a [float] (kept as its 32-bit pattern), both of
    kind [Data]; [CMD_GO] holds a [bool] and is of kind [Cmd]. *)
Module TestRegistry.

Inductive K : Type :=
| A
| B
| CMD_GO.

Definition K_eq_dec : forall a b : K, {a = b} + {a <> b}.
Proof. decide equality. Defined.

Definition value_t (k : K) : Type :=
  match k with
  | A => Z
  | B => Z
  | CMD_GO => bool
  end.

Definition kind (k : K) : Kind :=
  match k with
  | A => Data
  | B => Data
  | CMD_GO => Cmd
  end.

Definition zero (k : K) : value_t k :=
  match k with
  | A => 0
  | B => 0
  | CMD_GO => false
  end.

Definition Keys : list K := [A; B; CMD_GO].

Definition R : Type := Registry.tuple K value_t kind Keys.

Definition fresh : R := Registry.init K value_t kind zero Keys.

End TestRegistry.

(** ** One writer thread and one reader thread on a DBReg<S>

    The scenario of the tests [DBReg.NoTearPattern_CoherentUnderFlip] and
    [DBReg.MonotonicSequence]: [struct S { uint32_t a; uint32_t b; }], a
    writer looping over [r.write(S{i, ~i}); ++i] and a reader calling
    [r.read(s, &seq)] in a loop. Every access to an atomic member is one
    step of the thread that makes it, and the steps interleave in any
    order: one writer's release stores and [fetch_add] and a reader's
    acquire loads are observed in an order of this kind.

    The copies of an [S] are plain accesses, one per field. In [write] the
    copy into [buf_[nxt]] lies between the acquire load of [idx_] and the
    [fetch_add] and release stores that follow it, which keep it in its
    place. In [read] the copy [T tmp = buf_[i1]] follows the acquire loads
    of [idx_] and [seq_[i1]], which keep it from taking effect before
    them; the loads of the check after it are acquire loads as well, and
    an acquire load holds back what follows it, not what precedes it.
    Nothing in [read] therefore keeps the copy before its check: the
    statement issues the load of each field, and the load takes effect at a
    step of its own ([Copy]), any time from then until the value is handed
    to the caller. *)

Module Contention.

Definition S : Type := (Z * Z)%type.

(** [~x] on [uint32_t]. *)
Definition lnot32 (x : Z) : Z := wrap32 (Z.lnot x).

(** The correlation of the two fields: [b == ~a]. *)
Definition coherent (s : S) : Prop := snd s = lnot32 (fst s).

(** The value the test's writer passes in iteration [i]: [S{i, ~i}]. *)
Definition S_of_counter (i : Z) : S := (i, lnot32 i).

(** Where the writer is inside [write] (the statement it runs next). *)
Inductive wpc_t : Type :=
| W_idx      (* uint32_t cur = idx_.load(), nxt = cur ^ 1u *)
| W_copy_a   (* buf_[nxt] = v, field a *)
| W_copy_b   (* buf_[nxt] = v, field b *)
| W_ctr      (* s = seq_ctr_.fetch_add(1) + 1 *)
| W_seq      (* seq_[nxt].store(s) *)
| W_flip     (* idx_.store(nxt) *)
| W_has.     (* has_.store(true); back in the caller: ++i *)

(** Where the reader is inside [read]. *)
Inductive rpc_t : Type :=
| R_has      (* if (!has_.load()) return false *)
| R_idx1     (* i1 = idx_.load() *)
| R_seq1     (* s1 = seq_[i1].load() *)
| R_copy_a   (* T tmp = buf_[i1], field a: the load is issued *)
| R_copy_b   (* T tmp = buf_[i1], field b: the load is issued *)
| R_idx2     (* i2 = idx_.load(); i1 == i2 *)
| R_seq2     (* s1 == seq_[i1].load(); out = tmp; *out_seq = s1 *)
| R_ret.     (* back in the caller, which records the sequence number *)

(** The two fields of [S]. *)
Inductive field : Type :=
| Field_a
| Field_b.

(** The writer's program counter and locals: the caller's [i], and [v],
    [nxt] and [s] of [write]. *)
Record wstate : Type := mkW {
  wpc : wpc_t;
  wi : Z;
  wv : S;
  wnxt : Z;
  ws : Z
}.

(** The reader's program counter and locals: [i1], [s1] and [tmp] of
    [read], for each field of [tmp] whether its load has been issued and
    has not taken effect yet, what the last call returned and left in
    [out] and [*out_seq], and the caller's [last_seq]. *)
Record rstate : Type := mkR {
  rpc : rpc_t;
  i1 : Z;
  s1 : Z;
  tmp : S;
  pending_a : bool;
  pending_b : bool;
  ret : bool;
  out : S;
  out_seq : Z;
  last_seq : Z
}.

(** History variables. They are written by the steps and never read by
    them; they count in unbounded integers what the program counts
    modulo 2^32. *)
Record hist : Type := mkH {
  (* how many times [fetch_add] has run *)
  published : Z;
  (* for each slot, [published] when the slot was last stamped *)
  gseq : arr2 Z;
  (* [published] when the current attempt of [read] loaded [i1] *)
  started : Z;
  (* the entry of [gseq] that the load of [s1] corresponds to *)
  gs1 : Z;
  (* [published] when the last successful [read] passed its check *)
  finished : Z;
  (* the entry of [gseq] behind the caller's [last_seq] *)
  glast : Z;
  (* no load of the copy was still pending when the current attempt
     re-loaded [idx_] *)
  ontime : bool
}.

Record sys : Type := mkSys {
  reg : DBReg.t S;
  wr : wstate;
  rd : rstate;
  hs : hist
}.

Definition init : sys :=
  {| reg := DBReg.init (0, 0);
     wr := {| wpc := W_idx; wi := 0; wv := (0, 0); wnxt := 0; ws := 0 |};
     rd := {| rpc := R_has; i1 := 0; s1 := 0; tmp := (0, 0);
              pending_a := false; pending_b := false;
              ret := false; out := (0, 0); out_seq := 0; last_seq := 0 |};
     hs := {| published := 0; gseq := (0, 0); started := 0; gs1 := 0;
              finished := 0; glast := 0; ontime := true |} |}.

(** Updates of single members of the register and of single locals. *)
Definition reg_buf (r : DBReg.t S) (b : arr2 S) : DBReg.t S :=
  DBReg.mk b (DBReg.seq r) (DBReg.seq_ctr r) (DBReg.idx r) (DBReg.has_ r).

Definition reg_seq (r : DBReg.t S) (q : arr2 Z) : DBReg.t S :=
  DBReg.mk (DBReg.buf r) q (DBReg.seq_ctr r) (DBReg.idx r) (DBReg.has_ r).

Definition reg_ctr (r : DBReg.t S) (c : Z) : DBReg.t S :=
  DBReg.mk (DBReg.buf r) (DBReg.seq r) c (DBReg.idx r) (DBReg.has_ r).

Definition reg_idx (r : DBReg.t S) (i : Z) : DBReg.t S :=
  DBReg.mk (DBReg.buf r) (DBReg.seq r) (DBReg.seq_ctr r) i (DBReg.has_ r).

Definition reg_has (r : DBReg.t S) (h : bool) : DBReg.t S :=
  DBReg.mk (DBReg.buf r) (DBReg.seq r) (DBReg.seq_ctr r) (DBReg.idx r) h.

Definition at_wpc (w : wstate) (pc : wpc_t) : wstate :=
  mkW pc (wi w) (wv w) (wnxt w) (ws w).

Definition at_rpc (r : rstate) (pc : rpc_t) : rstate :=
  mkR pc (i1 r) (s1 r) (tmp r) (pending_a r) (pending_b r) (ret r) (out r)
      (out_seq r) (last_seq r).

Definition with_i1 (r : rstate) (pc : rpc_t) (i : Z) : rstate :=
  mkR pc i (s1 r) (tmp r) (pending_a r) (pending_b r) (ret r) (out r)
      (out_seq r) (last_seq r).

Definition with_s1 (r : rstate) (pc : rpc_t) (s : Z) : rstate :=
  mkR pc (i1 r) s (tmp r) (pending_a r) (pending_b r) (ret r) (out r)
      (out_seq r) (last_seq r).

(** The copy statements: the load of a field of [tmp] is issued. *)
Definition issue_a (r : rstate) : rstate :=
  mkR R_copy_b (i1 r) (s1 r) (tmp r) true (pending_b r) (ret r) (out r)
      (out_seq r) (last_seq r).

Definition issue_b (r : rstate) : rstate :=
  mkR R_idx2 (i1 r) (s1 r) (tmp r) (pending_a r) true (ret r) (out r)
      (out_seq r) (last_seq r).

(** A pending load takes effect: the field of [tmp] gets what the slot
    holds now. *)
Definition land_a (r : rstate) (slot : S) : rstate :=
  mkR (rpc r) (i1 r) (s1 r) (fst slot, snd (tmp r)) false (pending_b r)
      (ret r) (out r) (out_seq r) (last_seq r).

Definition land_b (r : rstate) (slot : S) : rstate :=
  mkR (rpc r) (i1 r) (s1 r) (fst (tmp r), snd slot) (pending_a r) false
      (ret r) (out r) (out_seq r) (last_seq r).

(** [tmp] as it is handed to the caller: the loads still pending take
    effect on the slot as it is then. *)
Definition settled (r : rstate) (slot : S) : S :=
  (if pending_a r then fst slot else fst (tmp r),
   if pending_b r then snd slot else snd (tmp r)).

(** The next iteration of the [for (;;)]: [tmp] goes out of scope. *)
Definition retry (r : rstate) : rstate :=
  mkR R_idx1 (i1 r) (s1 r) (tmp r) false false (ret r) (out r) (out_seq r)
      (last_seq r).

Definition returning (r : rstate) (ok : bool) (o : S) (q : Z) : rstate :=
  mkR R_ret (i1 r) (s1 r) (tmp r) false false ok o q (last_seq r).

(** *** The invariant of the interleaved system

    About the atomic members and the locals loaded from them, over the
    history variables. *)

Definition sq (st : sys) (j : Z) : Z := at2 (DBReg.seq (reg st)) j.

Definition gq (st : sys) (j : Z) : Z := at2 (gseq (hs st)) j.

Definition bf (st : sys) (j : Z) : S := at2 (DBReg.buf (reg st)) j.

Definition shared_inv (st : sys) : Prop :=
  (DBReg.idx (reg st) = 0 \/ DBReg.idx (reg st) = 1)
  /\ DBReg.seq_ctr (reg st) = wrap32 (published (hs st))
  /\ 0 <= gq st 0 <= published (hs st)
  /\ 0 <= gq st 1 <= published (hs st)
  /\ sq st 0 = wrap32 (gq st 0)
  /\ sq st 1 = wrap32 (gq st 1)
  /\ (DBReg.has_ (reg st) = true -> 0 < gq st (DBReg.idx (reg st)))
  /\ published (hs st) - 1 <= gq st (DBReg.idx (reg st))
  /\ last_seq (rd st) = wrap32 (glast (hs st))
  /\ 0 <= glast (hs st) <= gq st (DBReg.idx (reg st)).

Definition writer_inv (st : sys) : Prop :=
  let w := wr st in
  let p := published (hs st) in
  match wpc w with
  | W_idx => p <= gq st (DBReg.idx (reg st))
  | W_copy_a | W_copy_b | W_ctr =>
      wnxt w = 1 - DBReg.idx (reg st)
      /\ p <= gq st (DBReg.idx (reg st))
  | W_seq =>
      wnxt w = 1 - DBReg.idx (reg st)
      /\ ws w = wrap32 p /\ gq st (wnxt w) < p
  | W_flip =>
      wnxt w = 1 - DBReg.idx (reg st)
      /\ gq st (wnxt w) = p /\ 0 < p
  | W_has =>
      gq st (DBReg.idx (reg st)) = p /\ 0 < p
  end.

(** What the reader knows once it has loaded [i1], and once it has loaded
    [s1]. *)
Definition reader_has_i1 (st : sys) : Prop :=
  DBReg.has_ (reg st) = true
  /\ (i1 (rd st) = 0 \/ i1 (rd st) = 1)
  /\ started (hs st) <= published (hs st).

Definition reader_has_s1 (st : sys) : Prop :=
  reader_has_i1 st
  /\ s1 (rd st) = wrap32 (gs1 (hs st))
  /\ 0 < gs1 (hs st)
  /\ gs1 (hs st) <= gq st (i1 (rd st))
  /\ started (hs st) - 1 <= gs1 (hs st)
  /\ glast (hs st) <= gs1 (hs st).

Definition reader_inv (st : sys) : Prop :=
  let r := rd st in
  match rpc r with
  | R_has => True
  | R_idx1 => DBReg.has_ (reg st) = true
  | R_seq1 =>
      reader_has_i1 st
      /\ 0 < gq st (i1 r)
      /\ started (hs st) - 1 <= gq st (i1 r)
      /\ glast (hs st) <= gq st (i1 r)
  | R_copy_a | R_copy_b | R_idx2 => reader_has_s1 st
  | R_seq2 =>
      reader_has_s1 st
      /\ gs1 (hs st) <= gq st (DBReg.idx (reg st))
  | R_ret =>
      ret r = true ->
      out_seq r = wrap32 (gs1 (hs st))
      /\ 0 < gs1 (hs st)
      /\ glast (hs st) <= gs1 (hs st)
      /\ gs1 (hs st) <= gq st (DBReg.idx (reg st))
      /\ started (hs st) - 1 <= gs1 (hs st)
      /\ gs1 (hs st) <= finished (hs st)
      /\ finished (hs st) <= published (hs st)
  end.

Definition inv (st : sys) : Prop :=
  shared_inv st /\ writer_inv st /\ reader_inv st.

Section Writer.
(** The payload the writer passes in the iteration whose counter is [i]. *)
Variable gen : Z -> S.

(** One step of the writer: the next statement of [DBReg::write], and at
    its end the caller's [++i]. *)
Definition writer_step (st : sys) : sys :=
  let r := reg st in
  let w := wr st in
  let h := hs st in
  match wpc w with
  | W_idx =>
      let cur := DBReg.idx r in
      mkSys r (mkW W_copy_a (wi w) (gen (wi w)) (Z.lxor cur 1) (ws w))
            (rd st) h
  | W_copy_a =>
      let old := at2 (DBReg.buf r) (wnxt w) in
      let b' := set2 (DBReg.buf r) (wnxt w) (fst (wv w), snd old) in
      mkSys (reg_buf r b') (at_wpc w W_copy_b) (rd st) h
  | W_copy_b =>
      let old := at2 (DBReg.buf r) (wnxt w) in
      let b' := set2 (DBReg.buf r) (wnxt w) (fst old, snd (wv w)) in
      mkSys (reg_buf r b') (at_wpc w W_ctr) (rd st) h
  | W_ctr =>
      let s := wrap32 (DBReg.seq_ctr r + 1) in
      mkSys (reg_ctr r (wrap32 (DBReg.seq_ctr r + 1)))
            (mkW W_seq (wi w) (wv w) (wnxt w) s)
            (rd st)
            (mkH (published h + 1) (gseq h) (started h) (gs1 h) (finished h)
                 (glast h) (ontime h))
  | W_seq =>
      let q' := set2 (DBReg.seq r) (wnxt w) (ws w) in
      mkSys (reg_seq r q') (at_wpc w W_flip) (rd st)
            (mkH (published h) (set2 (gseq h) (wnxt w) (published h))
                 (started h) (gs1 h) (finished h) (glast h) (ontime h))
  | W_flip =>
      mkSys (reg_idx r (wnxt w)) (at_wpc w W_has) (rd st) h
  | W_has =>
      mkSys (reg_has r true)
            (mkW W_idx (wrap32 (wi w + 1)) (wv w) (wnxt w) (ws w))
            (rd st) h
  end.

(** One step of the reader: the next statement of [DBReg::read]; at
    [R_ret] the caller keeps the sequence number of a successful read in
    [last_seq] and calls [read] again. The two copy statements issue
    their loads; [out = tmp] needs both fields, so a load still pending
    then takes effect there. *)
Definition reader_step (st : sys) : sys :=
  let r := reg st in
  let l := rd st in
  let h := hs st in
  match rpc l with
  | R_has =>
      if negb (DBReg.has_ r)
      then mkSys r (wr st) (returning l false (out l) (out_seq l)) h
      else mkSys r (wr st) (at_rpc l R_idx1) h
  | R_idx1 =>
      mkSys r (wr st) (with_i1 l R_seq1 (DBReg.idx r))
            (mkH (published h) (gseq h) (published h) (gs1 h) (finished h)
                 (glast h) (ontime h))
  | R_seq1 =>
      mkSys r (wr st) (with_s1 l R_copy_a (at2 (DBReg.seq r) (i1 l)))
            (mkH (published h) (gseq h) (started h) (at2 (gseq h) (i1 l))
                 (finished h) (glast h) (ontime h))
  | R_copy_a =>
      mkSys r (wr st) (issue_a l) h
  | R_copy_b =>
      mkSys r (wr st) (issue_b l) h
  | R_idx2 =>
      let i2 := DBReg.idx r in
      if i1 l =? i2
      then mkSys r (wr st) (at_rpc l R_seq2)
                 (mkH (published h) (gseq h) (started h) (gs1 h)
                      (finished h) (glast h)
                      (negb (pending_a l || pending_b l)))
      else mkSys r (wr st) (retry l) h
  | R_seq2 =>
      if s1 l =? at2 (DBReg.seq r) (i1 l)
      then mkSys r (wr st)
                 (returning l true (settled l (at2 (DBReg.buf r) (i1 l)))
                            (s1 l))
                 (mkH (published h) (gseq h) (started h) (gs1 h)
                      (published h) (glast h) (ontime h))
      else mkSys r (wr st) (retry l) h
  | R_ret =>
      let q := if ret l then out_seq l else last_seq l in
      mkSys r (wr st)
            (mkR R_has (i1 l) (s1 l) (tmp l) (pending_a l) (pending_b l)
                 (ret l) (out l) (out_seq l) q)
            (mkH (published h) (gseq h) (started h) (gs1 h) (finished h)
                 (if ret l then gs1 h else glast h) (ontime h))
  end.

(** A pending load of the reader's copy takes effect. *)
Definition copy_step (f : field) (st : sys) : sys :=
  let l := rd st in
  let slot := at2 (DBReg.buf (reg st)) (i1 l) in
  match f with
  | Field_a =>
      if pending_a l
      then mkSys (reg st) (wr st) (land_a l slot) (hs st)
      else st
  | Field_b =>
      if pending_b l
      then mkSys (reg st) (wr st) (land_b l slot) (hs st)
      else st
  end.

(** Who takes the next step: one of the two threads, or the memory
    system completing a load of the reader's copy. *)
Inductive thread : Type :=
| Writer
| Reader
| Copy (f : field).

Definition step (who : thread) (st : sys) : sys :=
  match who with
  | Writer => writer_step st
  | Reader => reader_step st
  | Copy f => copy_step f st
  end.

(** The system after the steps of a schedule, in its order. *)
Definition run (sched : list thread) (st : sys) : sys :=
  fold_left (fun st who => step who st) sched st.

(** The states some interleaving reaches. *)
Inductive reachable : sys -> Prop :=
| reach_init : reachable init
| reach_step : forall who st, reachable st -> reachable (step who st).

End Writer.

(** *** Schedules and states used below *)

(** One whole [write], then one whole [read]. *)
Definition quiet_sched : list thread :=
  repeat Writer 7 ++ repeat Reader 7.

(** Two reads of one thread with two writes in their way: a read after
    the first write; a second read that loads [i1] and [s1], fails its
    check because a whole write ran meanwhile, tries again and passes its
    check while the third write is filling the other slot. *)
Definition successive_reads_sched : list thread :=
  repeat Writer 7 ++ repeat Reader 8
  ++ repeat Reader 3 ++ repeat Writer 7 ++ repeat Reader 3
  ++ repeat Reader 3 ++ repeat Writer 3 ++ repeat Reader 3.

(** The copy of field [b] takes effect late: after the first write the
    reader loads [i1 = 1] and [s1 = 1], copies field [a], issues the load
    of field [b] and re-loads [idx_], still 1; the second write runs and
    the third copies its value into slot 1; the reader re-loads
    [seq_[1]], still 1, and returns. *)
Definition late_copy_sched : list thread :=
  repeat Writer 7
  ++ [Reader; Reader; Reader; Reader; Copy Field_a; Reader; Reader]
  ++ repeat Writer 7 ++ repeat Writer 3
  ++ [Reader].


(** The reader has loaded [i1 = 1] and [s1 = 1] after the first write and
    copied field [a] of that write's value (0); two writes later it has
    copied field [b] of the third write's value ([~2]), and now waits
    before its final check while the writer, between two calls after [p]
    writes in all, has the counter at [c] and slot 1 stamped [c]. *)
Definition stalled (B0 B1 : S) (q0 c w : Z) (v : S) (p : Z) : sys :=
  {| reg := DBReg.mk (B0, B1) (q0, c) c 1 true;
     wr := {| wpc := W_idx; wi := w; wv := v; wnxt := 1; ws := c |};
     rd := {| rpc := R_idx2; i1 := 1; s1 := 1; tmp := (0, lnot32 2);
              pending_a := false; pending_b := false;
              ret := false; out := (0, 0); out_seq := 0; last_seq := 0 |};
     hs := {| published := p; gseq := (p - 1, p); started := 1; gs1 := 1;
              finished := 0; glast := 0; ontime := true |} |}.

(** The stalled reader after [3 + 2 * n] writes of the test's writer. *)
Definition aba_state (n : Z) : sys :=
  stalled (S_of_counter (wrap32 (1 + 2 * n)))
          (S_of_counter (wrap32 (2 + 2 * n)))
          (wrap32 (2 + 2 * n)) (wrap32 (3 + 2 * n)) (wrap32 (3 + 2 * n))
          (S_of_counter (wrap32 (2 + 2 * n))) (3 + 2 * n).

(** The schedule that leads to [aba_state 0], every load of the copy
    taking effect where it is issued: a whole write, the reader up to the
    copy of field [a], two whole writes, the copy of field [b]. *)
Definition aba_prefix : list thread :=
  repeat Writer 7 ++ repeat Reader 4 ++ [Copy Field_a]
  ++ repeat Writer 14 ++ [Reader; Copy Field_b].

(** The reader finishes its [read] once 2^32 + 1 writes have run. *)
Definition torn_state : sys :=
  run S_of_counter [Reader; Reader] (aba_state (2 ^ 31 - 1)).

End Contention.

(** ** A second writer thread

    Two threads in [write] on the same register, which the README lists as
    supported ("any number of writers per key"), and a reader. Each writer
    runs [Contention.writer_step] on its own locals. *)

Module TwoWriters.
Import Contention.

(** The system of the first writer and the reader, and the locals of the
    second writer. *)
Record sys2 : Type := mkSys2 {
  first : sys;
  wr2 : wstate
}.

Definition init2 : sys2 :=
  {| first := init;
     wr2 := {| wpc := W_idx; wi := 0; wv := (0, 0); wnxt := 0; ws := 0 |} |}.

Inductive thread2 : Type :=
| Writer1
| Writer2
| Reader1.

Definition step2 (gen1 gen2 : Z -> S) (who : thread2) (st : sys2) : sys2 :=
  let s := first st in
  match who with
  | Writer1 => mkSys2 (writer_step gen1 s) (wr2 st)
  | Writer2 =>
      let s' := writer_step gen2 (mkSys (reg s) (wr2 st) (rd s) (hs s)) in
      mkSys2 (mkSys (reg s') (wr s) (rd s') (hs s')) (wr s')
  | Reader1 => mkSys2 (reader_step s) (wr2 st)
  end.

Definition run2 (gen1 gen2 : Z -> S) (sched : list thread2) (st : sys2)
  : sys2 :=
  fold_left (fun st who => step2 gen1 gen2 who st) sched st.

(** Both writers enter [write] on the fresh register and take their
    sequence numbers, the first 1 and the second 2; the second stamps and
    publishes; a read returns; the first writer stamps and publishes; a
    second read returns. *)
Definition overtaking_sched : list thread2 :=
  repeat Writer1 4 ++ repeat Writer2 7 ++ repeat Reader1 8
  ++ repeat Writer1 3 ++ repeat Reader1 7.

End TwoWriters.

(** ** Runs of calls on a CmdReg<T> *)

Module CmdCalls.
Section Payload.
Variable T : Type.

(** The two mutating calls of [CmdReg], each running to completion. *)
Inductive call : Type :=
| Post (v : T)
| Consume.

(** The values posted by a run of calls, in call order. *)
Fixpoint posted (calls : list call) : list T :=
  match calls with
  | [] => []
  | Post v :: rest => v :: posted rest
  | Consume :: rest => posted rest
  end.

(** The values the successful [consume]s of a run hand out, in call order;
    [out] is the caller's variable, passed to every [consume]. *)
Fixpoint consumed (calls : list call) (r : CmdReg.t T) (out : T) : list T :=
  match calls with
  | [] => []
  | Post v :: rest => consumed rest (CmdReg.post v r) out
  | Consume :: rest =>
      let '(ok, out', r') := CmdReg.consume r out in
      if ok then out' :: consumed rest r' out' else consumed rest r' out'
  end.

(** [l] is [m] with some elements left out. *)
Inductive subseq : list T -> list T -> Prop :=
| subseq_nil : subseq [] []
| subseq_skip : forall x l m, subseq l m -> subseq l (x :: m)
| subseq_keep : forall x l m, subseq l m -> subseq (x :: l) (x :: m).

End Payload.

Arguments Post {T}.
Arguments Consume {T}.
Arguments posted {T}.
Arguments consumed {T}.
Arguments subseq {T}.
End CmdCalls.

(** ** The version header *)

Module Version.

Definition REGBUS_VERSION_MAJOR : Z := 0.
Definition REGBUS_VERSION_MINOR : Z := 1.
Definition REGBUS_VERSION_PATCH : Z := 1.

(** The body of [REGBUS_VERSION_HEX], as a function of the three numbers
    the macros above it define: [(major << 16) | (minor << 8) | patch]. *)
Definition hex_of (major minor patch : Z) : Z :=
  Z.lor (Z.lor (Z.shiftl major 16) (Z.shiftl minor 8)) patch.

Definition REGBUS_VERSION_HEX : Z :=
  hex_of REGBUS_VERSION_MAJOR REGBUS_VERSION_MINOR REGBUS_VERSION_PATCH.

(** The body of [REGBUS_VERSION_AT_LEAST(MAJ, MIN, PAT)], as a function of
    the three numbers as well. *)
Definition at_least_of (major minor patch MAJ MIN PAT : Z) : bool :=
  (major >? MAJ)
  || ((major =? MAJ) && (minor >? MIN))
  || ((major =? MAJ) && (minor =? MIN) && (patch >=? PAT)).

Definition REGBUS_VERSION_AT_LEAST (MAJ MIN PAT : Z) : bool :=
  at_least_of REGBUS_VERSION_MAJOR REGBUS_VERSION_MINOR REGBUS_VERSION_PATCH
              MAJ MIN PAT.

(** A version number that fits its place in [0xMMmmpp]: minor and patch in
    a byte, major small enough for [major << 16] to stay an [int]. *)
Definition fits (major minor patch : Z) : Prop :=
  0 <= major < 2 ^ 15 /\ 0 <= minor < 2 ^ 8 /\ 0 <= patch < 2 ^ 8.

End Version.

(** ** Which write a slot holds

    The invariant that ties every stamped slot, and every field of the
    reader's copy that has taken effect, to the write that produced it: the
    write that took sequence number [n] passed the value the writer
    generates for its counter [n - 1]. *)

Module Stamped.
Import Contention.

Section Writer.
Variable gen : Z -> S.

(** The value passed by the write that took sequence number [n]: the
    writer's counter is one less, modulo 2^32. *)
Definition value_of (n : Z) : S := gen (wrap32 (n - 1)).

(** Equality of payloads, field by field. *)
Definition same (x y : S) : Prop := fst x = fst y /\ snd x = snd y.

(** The writer has begun to overwrite slot [j] and has not stamped it. *)
Definition dirty (st : sys) (j : Z) : Prop :=
  match wpc (wr st) with
  | W_copy_b | W_ctr | W_seq => wnxt (wr st) = j
  | W_idx | W_copy_a | W_flip | W_has => False
  end.

(** The writer is inside a [write] that fills the slot the reader copies
    from, and has not stamped it yet. *)
Definition in_flight (st : sys) : Prop :=
  match wpc (wr st) with
  | W_copy_a | W_copy_b | W_ctr | W_seq => wnxt (wr st) = i1 (rd st)
  | W_idx | W_flip | W_has => False
  end.

(** The slot the reader copies from has been stamped again since the
    reader loaded [s1], or is about to be. *)
Definition doomed (st : sys) : Prop :=
  gs1 (hs st) < gq st (i1 (rd st)) \/ in_flight st.

Definition buffers_inv (st : sys) : Prop :=
  (0 < gq st 0 -> ~ dirty st 0 -> same (bf st 0) (value_of (gq st 0)))
  /\ (0 < gq st 1 -> ~ dirty st 1 -> same (bf st 1) (value_of (gq st 1))).

Definition writer_inv (st : sys) : Prop :=
  let w := wr st in
  let p := published (hs st) in
  match wpc w with
  | W_idx => wi w = wrap32 p
  | W_copy_a =>
      wi w = wrap32 p /\ same (wv w) (value_of (p + 1))
  | W_copy_b =>
      wi w = wrap32 p /\ same (wv w) (value_of (p + 1))
      /\ fst (bf st (wnxt w)) = fst (wv w)
  | W_ctr =>
      wi w = wrap32 p /\ same (bf st (wnxt w)) (value_of (p + 1))
  | W_seq =>
      wrap32 (wi w + 1) = wrap32 p /\ same (bf st (wnxt w)) (value_of p)
  | W_flip | W_has => wrap32 (wi w + 1) = wrap32 p
  end.

(** A field of [tmp] whose load has taken effect holds the field of the
    write stamped [gs1]. *)
Definition landed_a (st : sys) : Prop :=
  pending_a (rd st) = false ->
  fst (tmp (rd st)) = fst (value_of (gs1 (hs st))).

Definition landed_b (st : sys) : Prop :=
  pending_b (rd st) = false ->
  snd (tmp (rd st)) = snd (value_of (gs1 (hs st))).

Definition reader_inv (st : sys) : Prop :=
  let r := rd st in
  match rpc r with
  | R_has | R_idx1 | R_seq1 | R_copy_a => True
  | R_copy_b => doomed st \/ landed_a st
  | R_idx2 => doomed st \/ (landed_a st /\ landed_b st)
  | R_seq2 =>
      ontime (hs st) = true ->
      pending_a r = false /\ pending_b r = false
      /\ (gs1 (hs st) < gq st (i1 r) \/ same (tmp r) (value_of (gs1 (hs st))))
  | R_ret =>
      ret r = true ->
      ontime (hs st) = true ->
      finished (hs st) - started (hs st) < two32 - 1 ->
      same (out r) (gen (wrap32 (out_seq r - 1)))
  end.

Definition inv (st : sys) : Prop :=
  Contention.inv st /\ buffers_inv st /\ writer_inv st /\ reader_inv st.

End Writer.
End Stamped.

(** ** Calls in sequence on a registry

    The second call runs on what the first left; a call the compiler
    rejects ends the sequence. *)

Definition and_then {A B : Type} (x : option A) (f : A -> option B) : option B :=
  match x with Some a => f a | None => None end.

(** * Properties *)

(** ** Slots and wrap-around *)

Lemma at2_set2_same : forall (A : Type) (a : arr2 A) (i : Z) (x : A),
  at2 (set2 a i x) i = x.
Proof.
  intros A a i x. unfold at2, set2. destruct (i =? 0); reflexivity.
Qed.

Lemma at2_set2_other : forall (A : Type) (a : arr2 A) (i j : Z) (x : A),
  (i =? 0) <> (j =? 0) -> at2 (set2 a i x) j = at2 a j.
Proof.
  intros A a i j x H. unfold at2, set2.
  destruct (i =? 0), (j =? 0); try reflexivity; congruence.
Qed.

Lemma lxor_flip : forall c : Z, c = 0 \/ c = 1 -> Z.lxor c 1 = 1 - c.
Proof.
  intros c [-> | ->]; reflexivity.
Qed.

Lemma wrap32_range : forall z : Z, 0 <= wrap32 z < two32.
Proof.
  intro z. unfold wrap32. apply Z.mod_pos_bound. reflexivity.
Qed.

Lemma wrap32_small : forall z : Z, 0 <= z < two32 -> wrap32 z = z.
Proof.
  intros z H. unfold wrap32. apply Z.mod_small. exact H.
Qed.

Lemma wrap32_succ : forall z : Z, wrap32 (wrap32 z + 1) = wrap32 (z + 1).
Proof.
  intro z. unfold wrap32. apply Z.add_mod_idemp_l. discriminate.
Qed.

(** ** DBReg, one call at a time *)

Lemma read_loop_once : forall (T : Type) (fuel : nat) (r : DBReg.t T),
  DBReg.read_loop (S fuel) r
  = Some (at2 (DBReg.buf r) (DBReg.idx r), at2 (DBReg.seq r) (DBReg.idx r)).
Proof.
  intros T fuel r. simpl. rewrite !Z.eqb_refl. reflexivity.
Qed.

Lemma wf_init : forall (T : Type) (T0 : T), DBReg.wf (DBReg.init T0).
Proof.
  intros. left. reflexivity.
Qed.

Lemma wf_write : forall (T : Type) (v : T) (r : DBReg.t T),
  DBReg.wf r -> DBReg.wf (DBReg.write v r).
Proof.
  intros T v r H. unfold DBReg.wf, DBReg.write. simpl.
  rewrite (lxor_flip _ H). destruct H as [-> | ->]; [right | left]; reflexivity.
Qed.

Lemma writes_snoc : forall (T : Type) (vs : list T) (v : T) (r : DBReg.t T),
  DBReg.writes (vs ++ [v]) r = DBReg.write v (DBReg.writes vs r).
Proof.
  intros. unfold DBReg.writes. rewrite fold_left_app. reflexivity.
Qed.

Lemma wf_writes : forall (T : Type) (vs : list T) (r : DBReg.t T),
  DBReg.wf r -> DBReg.wf (DBReg.writes vs r).
Proof.
  intros T vs. induction vs as [| v vs IH]; intros r H; simpl.
  - exact H.
  - apply IH. apply wf_write. exact H.
Qed.

Lemma has_writes : forall (T : Type) (vs : list T) (r : DBReg.t T),
  DBReg.has_ (DBReg.writes vs r) = DBReg.has_ r || negb (Nat.eqb (length vs) 0).
Proof.
  intros T vs. induction vs as [| v vs IH] using rev_ind; intro r.
  - simpl. rewrite orb_false_r. reflexivity.
  - rewrite writes_snoc. simpl. rewrite length_app. simpl.
    replace (length vs + 1)%nat with (S (length vs)) by lia.
    simpl. rewrite orb_true_r. reflexivity.
Qed.

Lemma seq_ctr_writes : forall (T : Type) (vs : list T) (r : DBReg.t T),
  DBReg.seq_ctr (DBReg.writes vs r)
  = match vs with
    | [] => DBReg.seq_ctr r
    | _ => wrap32 (DBReg.seq_ctr r + Z.of_nat (length vs))
    end.
Proof.
  intros T vs. induction vs as [| v vs IH] using rev_ind; intro r.
  - reflexivity.
  - rewrite writes_snoc. simpl DBReg.seq_ctr. rewrite IH.
    rewrite length_app. simpl length. rewrite Nat2Z.inj_add. simpl Z.of_nat.
    destruct vs as [| w ws].
    + simpl. reflexivity.
    + cbn [app]. rewrite wrap32_succ. f_equal. lia.
Qed.

Lemma seq_ctr_writes_init : forall (T : Type) (T0 : T) (vs : list T),
  DBReg.seq_ctr (DBReg.writes vs (DBReg.init T0)) = wrap32 (Z.of_nat (length vs)).
Proof.
  intros. rewrite seq_ctr_writes. destruct vs; reflexivity.
Qed.

Lemma idx_writes_init : forall (T : Type) (T0 : T) (vs : list T),
  DBReg.idx (DBReg.writes vs (DBReg.init T0)) = Z.of_nat (length vs) mod 2.
Proof.
  intros T T0 vs. induction vs as [| v vs IH] using rev_ind.
  - reflexivity.
  - rewrite writes_snoc. simpl DBReg.idx.
    assert (W : DBReg.wf (DBReg.writes vs (DBReg.init T0)))
      by (apply wf_writes, wf_init).
    rewrite (lxor_flip _ W). rewrite IH.
    rewrite length_app. simpl length. rewrite Nat2Z.inj_add. simpl Z.of_nat.
    pose proof (Z.mod_pos_bound (Z.of_nat (length vs)) 2 eq_refl) as B.
    rewrite <- (Z.add_mod_idemp_l (Z.of_nat (length vs)) 1 2) by discriminate.
    destruct (Z.eq_dec (Z.of_nat (length vs) mod 2) 0) as [E | E].
    + rewrite E. reflexivity.
    + assert (E1 : Z.of_nat (length vs) mod 2 = 1) by lia.
      rewrite E1. reflexivity.
Qed.

(** The active slot carries the counter's value: the register's
    representation invariant between calls. *)
Lemma active_stamp_write : forall (T : Type) (v : T) (r : DBReg.t T),
  at2 (DBReg.seq (DBReg.write v r)) (DBReg.idx (DBReg.write v r))
  = DBReg.seq_ctr (DBReg.write v r).
Proof.
  intros. unfold DBReg.write. simpl. apply at2_set2_same.
Qed.

Lemma active_stamp_writes : forall (T : Type) (T0 : T) (vs : list T),
  at2 (DBReg.seq (DBReg.writes vs (DBReg.init T0)))
      (DBReg.idx (DBReg.writes vs (DBReg.init T0)))
  = DBReg.seq_ctr (DBReg.writes vs (DBReg.init T0)).
Proof.
  intros T T0 vs. destruct vs as [| v vs] using rev_ind.
  - reflexivity.
  - rewrite writes_snoc. apply active_stamp_write.
Qed.

Lemma read_after_write : forall (T : Type) (r : DBReg.t T) (v out : T)
    (out_seq : option Z) (fuel : nat),
  DBReg.read (S fuel) (DBReg.write v r) out out_seq
  = Some (true, v,
          match out_seq with
          | Some _ => Some (wrap32 (DBReg.seq_ctr r + 1))
          | None => None
          end).
Proof.
  intros. unfold DBReg.read. rewrite read_loop_once.
  unfold DBReg.write. simpl. rewrite !at2_set2_same. reflexivity.
Qed.

(** C1: for every payload value [v] and every register (active index 0 or
    1, as the class keeps it), [write(v)] followed by [read(out)] with no
    write in between returns true, leaves exactly [v] in [out] (and, when a
    sequence cell is passed, the stamp of that write), and [has()] is true
    afterwards; the loop of [read] ends in its first iteration. *)
Theorem C1_write_then_read_round_trip :
  forall (T : Type) (r : DBReg.t T) (v out : T) (out_seq : option Z)
         (fuel : nat),
    DBReg.wf r ->
    DBReg.read (S fuel) (DBReg.write v r) out out_seq
    = Some (true, v,
            match out_seq with
            | Some _ => Some (wrap32 (DBReg.seq_ctr r + 1))
            | None => None
            end)
    /\ DBReg.has (DBReg.write v r) = true.
Proof.
  intros T r v out out_seq fuel _. split.
  - apply read_after_write.
  - reflexivity.
Qed.

Lemma C1_write_then_read_round_trip_witness :
  DBReg.wf (DBReg.init 0)
  /\ DBReg.read 1 (DBReg.write 123 (DBReg.init 0)) 0 (Some 0)
     = Some (true, 123, Some 1)
  /\ DBReg.has (DBReg.write 123 (DBReg.init 0)) = true.
Proof.
  split; [apply wf_init |].
  exact (C1_write_then_read_round_trip Z (DBReg.init 0) 123 0 (Some 0) 0%nat
           (wf_init Z 0)).
Defined.

(** ** CmdReg *)

Lemma consume_false_frame : forall (T : Type) (r : CmdReg.t T) (out : T),
  fst (fst (CmdReg.consume r out)) = false ->
  CmdReg.consume r out = (false, out, r).
Proof.
  intros T r out. unfold CmdReg.consume.
  destruct (CmdReg.ready r); simpl; [discriminate | reflexivity].
Qed.

(** C2: after [post(v)] the first [consume] returns true with [out] equal
    to [v] and clears pending; a second [consume] with no [post] in between
    returns false; and a [consume] that returns false leaves [out] (and the
    register) as they were. *)
Theorem C2_command_one_shot :
  forall (T : Type) (r : CmdReg.t T) (v out out' : T),
    let first := CmdReg.consume (CmdReg.post v r) out in
    let second := CmdReg.consume (snd first) out' in
    fst first = (true, v)
    /\ CmdReg.pending (snd first) = false
    /\ second = (false, out', snd first)
    /\ (forall (r0 : CmdReg.t T) (o : T),
          fst (fst (CmdReg.consume r0 o)) = false ->
          snd (fst (CmdReg.consume r0 o)) = o /\ snd (CmdReg.consume r0 o) = r0).
Proof.
  intros T r v out out'. cbv zeta.
  split; [reflexivity |]. split; [reflexivity |]. split; [reflexivity |].
  intros r0 o H. rewrite (consume_false_frame _ _ _ H). split; reflexivity.
Qed.

(** C7: [post(v1)] then [post(v2)] with no [consume] in between leaves the
    register pending with stored value [v2]; the register is the one a
    single [post(v2)] leaves, so [v1] cannot be observed, and the next
    [consume] yields [v2]. *)
Theorem C7_second_post_overwrites :
  forall (T : Type) (r : CmdReg.t T) (v1 v2 out : T),
    let r2 := CmdReg.post v2 (CmdReg.post v1 r) in
    CmdReg.pending r2 = true
    /\ CmdReg.val r2 = v2
    /\ r2 = CmdReg.post v2 r
    /\ fst (CmdReg.consume r2 out) = (true, v2)
    /\ CmdReg.pending (snd (CmdReg.consume r2 out)) = false.
Proof.
  intros. cbv zeta. repeat split.
Qed.

(** ** Availability and the effect of one write *)

Lemma has_writes_init : forall (T : Type) (T0 : T) (vs : list T),
  DBReg.has (DBReg.writes vs (DBReg.init T0)) = true <-> vs <> [].
Proof.
  intros T T0 vs. unfold DBReg.has. rewrite has_writes. simpl.
  destruct vs as [| v vs]; simpl; split; intro H;
    try discriminate; try reflexivity; congruence.
Qed.

Lemma read_ok_has : forall (T : Type) (r : DBReg.t T) (out : T)
    (out_seq : option Z) (fuel : nat),
  DBReg.read_ok (S fuel) r out out_seq = Some (DBReg.has r).
Proof.
  intros. unfold DBReg.read_ok, DBReg.read, DBReg.has.
  rewrite read_loop_once. destruct (DBReg.has_ r); reflexivity.
Qed.

(** C3: on a freshly constructed register [DBReg::read] returns false
    (leaving its out-parameters alone) and [CmdReg::consume] returns false;
    on a register that has seen the writes [vs] and nothing else, [read]
    returns false exactly when [vs] is empty, and [has()] is true exactly
    when it is not. *)
Theorem C3_no_value_before_first_write :
  forall (T : Type) (T0 : T) (vs : list T) (out : T) (out_seq : option Z)
         (fuel : nat),
    DBReg.read fuel (DBReg.init T0) out out_seq = Some (false, out, out_seq)
    /\ CmdReg.consume (CmdReg.init T0) out = (false, out, CmdReg.init T0)
    /\ (DBReg.read_ok (S fuel) (DBReg.writes vs (DBReg.init T0)) out out_seq
        = Some false <-> vs = [])
    /\ (DBReg.has (DBReg.writes vs (DBReg.init T0)) = true <-> vs <> []).
Proof.
  intros T T0 vs out out_seq fuel.
  split; [reflexivity |]. split; [reflexivity |]. split.
  - rewrite read_ok_has.
    pose proof (has_writes_init T T0 vs) as H.
    destruct (DBReg.has (DBReg.writes vs (DBReg.init T0))); split; intro E.
    + discriminate.
    + subst vs. destruct H as [H _]. exfalso. apply (H eq_refl). reflexivity.
    + destruct vs as [| v vs']; [reflexivity |].
      destruct H as [_ H]. discriminate H. discriminate.
    + reflexivity.
  - apply has_writes_init.
Qed.

(** C4: on a register whose active index is 0 or 1, [write(v)] copies [v]
    into the inactive slot, stamps that slot with the counter's next value
    (one more, in 32 bits), makes that slot the active one and sets
    [has_]; the slot that was active keeps its contents and its stamp.
    [write] is a total function: it has no failing outcome. *)
Theorem C4_write_fills_inactive_slot :
  forall (T : Type) (r : DBReg.t T) (v : T),
    DBReg.wf r ->
    let cur := DBReg.idx r in
    let nxt := 1 - cur in
    let r' := DBReg.write v r in
    nxt <> cur
    /\ at2 (DBReg.buf r') nxt = v
    /\ at2 (DBReg.seq r') nxt = wrap32 (DBReg.seq_ctr r + 1)
    /\ DBReg.seq_ctr r' = wrap32 (DBReg.seq_ctr r + 1)
    /\ DBReg.idx r' = nxt
    /\ DBReg.has r' = true
    /\ at2 (DBReg.buf r') cur = at2 (DBReg.buf r) cur
    /\ at2 (DBReg.seq r') cur = at2 (DBReg.seq r) cur
    /\ DBReg.wf r'.
Proof.
  intros T r v W. cbv zeta.
  pose proof (wf_write T v r W) as W'.
  assert (N : (1 - DBReg.idx r =? 0) <> (DBReg.idx r =? 0))
    by (destruct W as [-> | ->]; discriminate).
  assert (D : 1 - DBReg.idx r <> DBReg.idx r)
    by (destruct W as [-> | ->]; discriminate).
  unfold DBReg.write, DBReg.has in *. simpl in *.
  rewrite (lxor_flip _ W) in *.
  repeat match goal with |- _ /\ _ => split end.
  - exact D.
  - apply at2_set2_same.
  - apply at2_set2_same.
  - reflexivity.
  - reflexivity.
  - reflexivity.
  - apply at2_set2_other. exact N.
  - apply at2_set2_other. exact N.
  - exact W'.
Qed.

Lemma C4_write_fills_inactive_slot_witness :
  DBReg.wf (DBReg.init 0)
  /\ at2 (DBReg.buf (DBReg.write 5 (DBReg.init 0))) 1 = 5
  /\ at2 (DBReg.buf (DBReg.write 5 (DBReg.init 0))) 0 = 0.
Proof.
  pose proof (C4_write_fills_inactive_slot Z (DBReg.init 0) 5 (wf_init Z 0))
    as H.
  cbv zeta in H.
  split; [apply wf_init |].
  split; [apply H | apply H].
Defined.

(** ** The sequence counter *)

Lemma two32_eq : two32 = 4294967296.
Proof. reflexivity. Qed.

(** C10: the counter starts at 0; the n-th [write] (here the one after the
    writes [vs], so n is one more than their number) stamps n modulo 2^32
    into the slot it fills and leaves the counter there; a [read] after
    exactly n writes returns the last value written and sequence number n
    modulo 2^32, which is positive as long as n is below 2^32; and after
    exactly 2^32 writes the counter is 0 again. *)
Theorem C10_sequence_number_counts_writes :
  forall (T : Type) (T0 : T) (vs : list T) (v out : T) (q : Z) (fuel : nat),
    let n := Z.of_nat (length (vs ++ [v])) in
    let r := DBReg.writes (vs ++ [v]) (DBReg.init T0) in
    DBReg.seq_ctr (DBReg.init T0) = 0
    /\ n = Z.of_nat (length vs) + 1
    /\ at2 (DBReg.buf r) (DBReg.idx r) = v
    /\ at2 (DBReg.seq r) (DBReg.idx r) = n mod 2 ^ 32
    /\ DBReg.seq_ctr r = n mod 2 ^ 32
    /\ DBReg.read (S fuel) r out (Some q) = Some (true, v, Some (n mod 2 ^ 32))
    /\ (n < 2 ^ 32 -> 0 < n mod 2 ^ 32)
    /\ (n = 2 ^ 32 -> DBReg.seq_ctr r = 0).
Proof.
  intros T T0 vs v out q fuel. cbv zeta.
  assert (C : DBReg.seq_ctr (DBReg.writes (vs ++ [v]) (DBReg.init T0))
              = Z.of_nat (length (vs ++ [v])) mod 2 ^ 32)
    by apply seq_ctr_writes_init.
  assert (L : Z.of_nat (length (vs ++ [v])) = Z.of_nat (length vs) + 1)
    by (rewrite length_app; simpl length; lia).
  split; [reflexivity |]. split; [exact L |].
  split; [rewrite writes_snoc; unfold DBReg.write; simpl;
          apply at2_set2_same |].
  split; [rewrite active_stamp_writes; exact C |].
  split; [exact C |].
  split.
  - rewrite writes_snoc, read_after_write.
    rewrite seq_ctr_writes_init, wrap32_succ, L. reflexivity.
  - split.
    + intro B. rewrite Z.mod_small; lia.
    + intro E. rewrite C, E. reflexivity.
Qed.

(** ** Registry: every key has its own member *)

Section RegistryFacts.
Variable Key : Type.
Variable Key_eq_dec : forall a b : Key, {a = b} + {a <> b}.
Variable value_t : Key -> Type.
Variable kind : Key -> Kind.

Local Abbreviation tuple := (Registry.tuple Key value_t kind).
Local Abbreviation storage_t := (Registry.storage_t Key value_t kind).
Local Abbreviation get := (Registry.get Key Key_eq_dec value_t kind).
Local Abbreviation update := (Registry.update Key Key_eq_dec value_t kind).
Local Abbreviation declared := (Registry.declared Key Key_eq_dec).

Lemma declared_get : forall (K : Key) (Keys : list Key) (st : tuple Keys),
  declared K Keys = true <-> exists r, get K Keys st = Some r.
Proof.
  intros K Keys. unfold Registry.declared.
  induction Keys as [| Head Tail IH]; intro st; simpl.
  - split; [discriminate | intros [r H]; discriminate].
  - destruct (Key_eq_dec K Head) as [e | n].
    + split; [intros _; eexists; reflexivity | reflexivity].
    + specialize (IH (snd st)).
      destruct (Registry.index_of Key Key_eq_dec K Tail); exact IH.
Qed.

(** [index_of] finds the first position of the key in the list, which is
    where [get] and [update] stop. *)
Lemma index_of_first : forall (K : Key) (Keys : list Key) (i : nat),
  Registry.index_of Key Key_eq_dec K Keys = Some i ->
  nth_error Keys i = Some K
  /\ forall j : nat, (j < i)%nat -> nth_error Keys j <> Some K.
Proof.
  intros K Keys. induction Keys as [| Head Tail IH]; intros i H; simpl in H.
  - discriminate.
  - destruct (Key_eq_dec K Head) as [e | n].
    + injection H as <-. subst Head. split; [reflexivity |].
      intros j Hj. inversion Hj.
    + destruct (Registry.index_of Key Key_eq_dec K Tail) as [i' |];
        [| discriminate].
      injection H as <-. destruct (IH i' eq_refl) as [N F].
      split; [exact N |].
      intros [| j] Hj; simpl.
      * intro E. injection E as E. apply n. symmetry. exact E.
      * apply F. apply PeanoNat.lt_S_n. exact Hj.
Qed.

Lemma get_update_same :
  forall (K : Key) (Keys : list Key) (f : storage_t K -> storage_t K)
         (st : tuple Keys),
    get K Keys (update K Keys f st) = option_map f (get K Keys st).
Proof.
  intros K Keys f. induction Keys as [| Head Tail IH]; intro st; simpl.
  - reflexivity.
  - destruct (Key_eq_dec K Head) as [e | n]; simpl.
    + destruct e. reflexivity.
    + apply IH.
Qed.

Lemma get_update_other :
  forall (K1 K2 : Key) (Keys : list Key) (f : storage_t K1 -> storage_t K1)
         (st : tuple Keys),
    K1 <> K2 ->
    get K2 Keys (update K1 Keys f st) = get K2 Keys st.
Proof.
  intros K1 K2 Keys f st D. induction Keys as [| Head Tail IH]; simpl.
  - reflexivity.
  - destruct (Key_eq_dec K1 Head) as [e1 | n1];
      destruct (Key_eq_dec K2 Head) as [e2 | n2]; simpl.
    + exfalso. apply D. congruence.
    + reflexivity.
    + reflexivity.
    + apply IH.
Qed.

Lemma same_member_undisturbed :
  forall (K : Key) (Keys : list Key) (st st' : tuple Keys),
    get K Keys st' = get K Keys st ->
    Registry.undisturbed Key Key_eq_dec value_t kind K Keys st st'.
Proof.
  intros K Keys st st' E. unfold Registry.undisturbed.
  split; [exact E |]. split; [| split].
  - intros. unfold Registry.read. rewrite E. reflexivity.
  - unfold Registry.has. rewrite E. reflexivity.
  - intro out. unfold Registry.consume. rewrite E.
    destruct (get K Keys st) as [r |]; [| reflexivity].
    destruct (Registry.as_cmd Key value_t kind K r) as [c |]; [| reflexivity].
    destruct (CmdReg.consume c out) as [[ok o] c']. reflexivity.
Qed.

Lemma as_data_on_data :
  forall (K : Key) (f : DBReg.t (value_t K) -> DBReg.t (value_t K))
         (r : storage_t K),
    Registry.as_data Key value_t kind K (Registry.on_data Key value_t kind K f r)
    = option_map f (Registry.as_data Key value_t kind K r).
Proof.
  intros K f. unfold Registry.as_data, Registry.on_data, Registry.storage_t.
  destruct (kind K); intro r; reflexivity.
Qed.

Lemma as_cmd_on_cmd :
  forall (K : Key) (f : CmdReg.t (value_t K) -> CmdReg.t (value_t K))
         (r : storage_t K),
    Registry.as_cmd Key value_t kind K (Registry.on_cmd Key value_t kind K f r)
    = option_map f (Registry.as_cmd Key value_t kind K r).
Proof.
  intros K f. unfold Registry.as_cmd, Registry.on_cmd, Registry.storage_t.
  destruct (kind K); intro r; reflexivity.
Qed.

Lemma as_data_is_data :
  forall (K : Key) (r : storage_t K) (d : DBReg.t (value_t K)),
    Registry.as_data Key value_t kind K r = Some d ->
    Registry.is_data Key kind K = true.
Proof.
  intro K. unfold Registry.as_data, Registry.is_data, Registry.storage_t.
  destruct (kind K); intros r d H; [reflexivity | discriminate].
Qed.

Lemma as_cmd_is_cmd :
  forall (K : Key) (r : storage_t K) (c : CmdReg.t (value_t K)),
    Registry.as_cmd Key value_t kind K r = Some c ->
    Registry.is_cmd Key kind K = true.
Proof.
  intro K. unfold Registry.as_cmd, Registry.is_cmd, Registry.storage_t.
  destruct (kind K); intros r c H; [discriminate | reflexivity].
Qed.

(** C8: for distinct keys [K1] and [K2], a [write], [post] or [consume] for
    [K1] leaves the member of [K2] as it was, and with it every result of
    [read], [has] and [consume] for [K2]; and the operations for [K1] are
    those of the register stored for [K1]: [write] and [post] replace it by
    what [DBReg::write] and [CmdReg::post] make of it, [read], [has] and
    [consume] return what [DBReg::read], [DBReg::has] and
    [CmdReg::consume] return on it. *)
Theorem C8_registry_keys_are_independent :
  forall (Keys : list Key) (K1 K2 : Key) (st : tuple Keys),
    K1 <> K2 ->
    (forall (v : value_t K1) (st' : tuple Keys),
        Registry.write Key Key_eq_dec value_t kind K1 Keys v st = Some st' ->
        Registry.undisturbed Key Key_eq_dec value_t kind K2 Keys st st')
    /\ (forall (v : value_t K1) (st' : tuple Keys),
        Registry.post Key Key_eq_dec value_t kind K1 Keys v st = Some st' ->
        Registry.undisturbed Key Key_eq_dec value_t kind K2 Keys st st')
    /\ (forall (out out' : value_t K1) (ok : bool) (st' : tuple Keys),
        Registry.consume Key Key_eq_dec value_t kind K1 Keys st out
        = Some (ok, out', st') ->
        Registry.undisturbed Key Key_eq_dec value_t kind K2 Keys st st')
    /\ (forall (r : storage_t K1) (d : DBReg.t (value_t K1)),
        get K1 Keys st = Some r ->
        Registry.as_data Key value_t kind K1 r = Some d ->
        (forall v : value_t K1,
            exists st' r',
              Registry.write Key Key_eq_dec value_t kind K1 Keys v st = Some st'
              /\ get K1 Keys st' = Some r'
              /\ Registry.as_data Key value_t kind K1 r'
                 = Some (DBReg.write v d))
        /\ (forall (fuel : nat) (out : value_t K1) (seq : option Z),
            Registry.read Key Key_eq_dec value_t kind fuel K1 Keys st out seq
            = DBReg.read fuel d out seq)
        /\ Registry.has Key Key_eq_dec value_t kind K1 Keys st
           = Some (DBReg.has d))
    /\ (forall (r : storage_t K1) (c : CmdReg.t (value_t K1)),
        get K1 Keys st = Some r ->
        Registry.as_cmd Key value_t kind K1 r = Some c ->
        (forall v : value_t K1,
            exists st' r',
              Registry.post Key Key_eq_dec value_t kind K1 Keys v st = Some st'
              /\ get K1 Keys st' = Some r'
              /\ Registry.as_cmd Key value_t kind K1 r'
                 = Some (CmdReg.post v c))
        /\ (forall out : value_t K1,
            exists st' r',
              Registry.consume Key Key_eq_dec value_t kind K1 Keys st out
              = Some (fst (CmdReg.consume c out), st')
              /\ get K1 Keys st' = Some r'
              /\ Registry.as_cmd Key value_t kind K1 r'
                 = Some (snd (CmdReg.consume c out)))).
Proof.
  intros Keys K1 K2 st D.
  split; [| split; [| split; [| split]]].
  - intros v st' H. unfold Registry.write in H.
    destruct (Registry.is_data Key kind K1 && declared K1 Keys);
      [| discriminate].
    injection H as <-. apply same_member_undisturbed.
    apply get_update_other. exact D.
  - intros v st' H. unfold Registry.post in H.
    destruct (Registry.is_cmd Key kind K1 && declared K1 Keys);
      [| discriminate].
    injection H as <-. apply same_member_undisturbed.
    apply get_update_other. exact D.
  - intros out out' ok st' H. unfold Registry.consume in H.
    destruct (get K1 Keys st) as [r |]; [| discriminate].
    destruct (Registry.as_cmd Key value_t kind K1 r) as [c |];
      [| discriminate].
    destruct (CmdReg.consume c out) as [[ok0 o0] c'].
    injection H as _ _ <-. apply same_member_undisturbed.
    apply get_update_other. exact D.
  - intros r d G V.
    assert (Dcl : declared K1 Keys = true)
      by (apply (declared_get K1 Keys st); exists r; exact G).
    split; [| split].
    + intro v. unfold Registry.write.
      rewrite (as_data_is_data K1 r d V), Dcl. simpl.
      eexists. eexists. split; [reflexivity |].
      rewrite get_update_same, G. simpl. split; [reflexivity |].
      rewrite as_data_on_data, V. reflexivity.
    + intros. unfold Registry.read. rewrite G, V. reflexivity.
    + unfold Registry.has. rewrite G, V. reflexivity.
  - intros r c G V.
    assert (Dcl : declared K1 Keys = true)
      by (apply (declared_get K1 Keys st); exists r; exact G).
    split.
    + intro v. unfold Registry.post.
      rewrite (as_cmd_is_cmd K1 r c V), Dcl. simpl.
      eexists. eexists. split; [reflexivity |].
      rewrite get_update_same, G. simpl. split; [reflexivity |].
      rewrite as_cmd_on_cmd, V. reflexivity.
    + intro out. unfold Registry.consume. rewrite G, V.
      destruct (CmdReg.consume c out) as [[ok o] c'] eqn:E. simpl.
      eexists. eexists. split; [reflexivity |].
      rewrite get_update_same, G. simpl. split; [reflexivity |].
      rewrite as_cmd_on_cmd, V. reflexivity.
Qed.

End RegistryFacts.

Lemma C8_registry_keys_are_independent_witness :
  TestRegistry.A <> TestRegistry.B
  /\ Registry.undisturbed TestRegistry.K TestRegistry.K_eq_dec
       TestRegistry.value_t TestRegistry.kind
       TestRegistry.B TestRegistry.Keys TestRegistry.fresh
       (Registry.update TestRegistry.K TestRegistry.K_eq_dec
          TestRegistry.value_t TestRegistry.kind TestRegistry.A
          TestRegistry.Keys
          (Registry.on_data TestRegistry.K TestRegistry.value_t
             TestRegistry.kind TestRegistry.A (DBReg.write 123))
          TestRegistry.fresh).
Proof.
  assert (D : TestRegistry.A <> TestRegistry.B) by discriminate.
  split; [exact D |].
  apply (proj1 (C8_registry_keys_are_independent
                  TestRegistry.K TestRegistry.K_eq_dec TestRegistry.value_t
                  TestRegistry.kind TestRegistry.Keys
                  TestRegistry.A TestRegistry.B TestRegistry.fresh D)
               123).
  reflexivity.
Defined.

(** The scenario of the tests [Registry.DataRoundTrip] and
    [Registry.CommandConsume] on the embedding: write [A = 123], read [A]; write [B], read [B];
    consume [CMD_GO] before any post, post, consume twice. *)
Example registry_data_round_trip :
  exists r1 r2 : TestRegistry.R,
    Registry.write TestRegistry.K TestRegistry.K_eq_dec TestRegistry.value_t
      TestRegistry.kind TestRegistry.A TestRegistry.Keys 123
      TestRegistry.fresh = Some r1
    /\ Registry.read TestRegistry.K TestRegistry.K_eq_dec TestRegistry.value_t
         TestRegistry.kind 1 TestRegistry.A TestRegistry.Keys r1 0 (Some 0)
       = Some (true, 123, Some 1)
    /\ Registry.write TestRegistry.K TestRegistry.K_eq_dec TestRegistry.value_t
         TestRegistry.kind TestRegistry.B TestRegistry.Keys 1078523331 r1
       = Some r2
    /\ Registry.read TestRegistry.K TestRegistry.K_eq_dec TestRegistry.value_t
         TestRegistry.kind 1 TestRegistry.B TestRegistry.Keys r2 0 None
       = Some (true, 1078523331, None)
    /\ Registry.read TestRegistry.K TestRegistry.K_eq_dec TestRegistry.value_t
         TestRegistry.kind 1 TestRegistry.A TestRegistry.Keys r2 0 (Some 0)
       = Some (true, 123, Some 1).
Proof.
  eexists. eexists.
  split; [reflexivity |]. split; [reflexivity |].
  split; [reflexivity |]. split; reflexivity.
Qed.

Example registry_command_consume :
  exists r1 r2 : TestRegistry.R,
    Registry.consume TestRegistry.K TestRegistry.K_eq_dec TestRegistry.value_t
      TestRegistry.kind TestRegistry.CMD_GO TestRegistry.Keys
      TestRegistry.fresh false
    = Some (false, false, TestRegistry.fresh)
    /\ Registry.post TestRegistry.K TestRegistry.K_eq_dec TestRegistry.value_t
         TestRegistry.kind TestRegistry.CMD_GO TestRegistry.Keys true
         TestRegistry.fresh = Some r1
    /\ Registry.consume TestRegistry.K TestRegistry.K_eq_dec
         TestRegistry.value_t TestRegistry.kind TestRegistry.CMD_GO
         TestRegistry.Keys r1 false
       = Some (true, true, r2)
    /\ Registry.consume TestRegistry.K TestRegistry.K_eq_dec
         TestRegistry.value_t TestRegistry.kind TestRegistry.CMD_GO
         TestRegistry.Keys r2 false
       = Some (false, false, r2).
Proof.
  eexists. eexists.
  split; [reflexivity |]. split; [reflexivity |].
  split; reflexivity.
Qed.

(** A call of the wrong kind, or for a key that is not listed, is not a
    program: the embedding has no result for it. *)
Example registry_rejects_wrong_kind :
  Registry.write TestRegistry.K TestRegistry.K_eq_dec TestRegistry.value_t
    TestRegistry.kind TestRegistry.CMD_GO TestRegistry.Keys true
    TestRegistry.fresh = None
  /\ Registry.post TestRegistry.K TestRegistry.K_eq_dec TestRegistry.value_t
       TestRegistry.kind TestRegistry.A TestRegistry.Keys 1
       TestRegistry.fresh = None
  /\ Registry.has TestRegistry.K TestRegistry.K_eq_dec TestRegistry.value_t
       TestRegistry.kind TestRegistry.B [TestRegistry.A]
       (Registry.init TestRegistry.K TestRegistry.value_t TestRegistry.kind
          TestRegistry.zero [TestRegistry.A]) = None.
Proof.
  split; [reflexivity |]. split; reflexivity.
Qed.

(** ** Sequence numbers over calls that run to completion *)

Lemma read_seqs_sorted :
  forall (T : Type) (T0 : T) (fuel : nat) (ops : list (DBReg.op T))
         (r : DBReg.t T),
    at2 (DBReg.seq r) (DBReg.idx r) = DBReg.seq_ctr r ->
    0 <= DBReg.seq_ctr r ->
    DBReg.seq_ctr r + DBReg.count_writes ops < two32 ->
    StronglySorted Z.le (DBReg.read_seqs T0 (S fuel) ops r)
    /\ Forall (fun s => DBReg.seq_ctr r <= s) (DBReg.read_seqs T0 (S fuel) ops r).
Proof.
  intros T T0 fuel ops.
  induction ops as [| o ops IH]; intros r A P B.
  - split; constructor.
  - destruct o as [v |].
    + cbn [DBReg.read_seqs].
      assert (L : DBReg.count_writes (DBReg.OpWrite v :: ops)
                  = DBReg.count_writes ops + 1)
        by (unfold DBReg.count_writes; simpl; lia).
      assert (N : 0 <= DBReg.count_writes ops)
        by (unfold DBReg.count_writes; lia).
      assert (C : DBReg.seq_ctr (DBReg.write v r) = DBReg.seq_ctr r + 1)
        by (simpl; apply wrap32_small; lia).
      destruct (IH (DBReg.write v r)) as [S1 F1].
      * apply active_stamp_write.
      * lia.
      * lia.
      * split; [exact S1 |].
        rewrite C in F1. eapply Forall_impl; [| exact F1].
        simpl. intros; lia.
    + assert (L : DBReg.count_writes (DBReg.OpRead :: ops)
                  = DBReg.count_writes ops)
        by reflexivity.
      destruct (IH r A P) as [S1 F1]; [lia |].
      cbn [DBReg.read_seqs]. unfold DBReg.read. rewrite read_loop_once.
      destruct (DBReg.has_ r); simpl.
      * rewrite A. split.
        -- constructor; assumption.
        -- constructor; [lia | assumption].
      * split; assumption.
Qed.

(** After exactly 2^32 - 1 writes the counter and the active stamp are at
    their largest value; one more write takes both to 0. *)
Lemma last_stamp_before_wrap :
  forall (T : Type) (T0 v : T) (n : nat),
    Z.of_nat n = two32 - 1 ->
    let r := DBReg.writes (repeat v n) (DBReg.init T0) in
    DBReg.seq_ctr r = two32 - 1
    /\ DBReg.seq_ctr (DBReg.write v r) = 0
    /\ DBReg.read_seqs T0 1 [DBReg.OpRead; DBReg.OpWrite v; DBReg.OpRead] r
       = [two32 - 1; 0].
Proof.
  intros T T0 v n E r.
  assert (C : DBReg.seq_ctr r = two32 - 1).
  { unfold r. rewrite seq_ctr_writes_init, repeat_length, E.
    apply wrap32_small. rewrite two32_eq. lia. }
  assert (H : DBReg.has_ r = true).
  { apply (has_writes_init T T0 (repeat v n)).
    destruct n as [| n']; [rewrite two32_eq in E; simpl in E; lia |].
    simpl. discriminate. }
  assert (A : at2 (DBReg.seq r) (DBReg.idx r) = two32 - 1).
  { unfold r. rewrite active_stamp_writes. exact C. }
  assert (W : DBReg.seq_ctr (DBReg.write v r) = 0).
  { simpl. rewrite C. replace (two32 - 1 + 1) with two32 by lia. reflexivity. }
  split; [exact C |]. split; [exact W |].
  cbn [DBReg.read_seqs]. unfold DBReg.read at 1. rewrite read_loop_once.
  rewrite H, A. cbn [negb].
  unfold DBReg.read. rewrite read_loop_once, active_stamp_write, W.
  reflexivity.
Qed.

(** After 2^32 - 1 writes a read returns sequence number 2^32 - 1; the
    next write takes the counter from 2^32 - 1 down to 0, and the read
    after it returns 0. *)
Lemma sequence_wraps_to_zero :
  let r := DBReg.writes (repeat 7 (Z.to_nat (two32 - 1))) (DBReg.init 0) in
  DBReg.seq_ctr (DBReg.write 7 r) < DBReg.seq_ctr r
  /\ DBReg.read_seqs 0 1 [DBReg.OpRead; DBReg.OpWrite 7; DBReg.OpRead] r
     = [two32 - 1; 0]
  /\ ~ StronglySorted Z.le
         (DBReg.read_seqs 0 1 [DBReg.OpRead; DBReg.OpWrite 7; DBReg.OpRead] r).
Proof.
  assert (E : Z.of_nat (Z.to_nat (two32 - 1)) = two32 - 1).
  { apply Z2Nat.id. rewrite two32_eq. lia. }
  destruct (last_stamp_before_wrap Z 0 7 _ E) as [C [W R]].
  cbv zeta. rewrite C, W, R.
  split; [rewrite two32_eq; lia |]. split; [reflexivity |].
  intro S. inversion S as [| a l _ F]. subst.
  inversion F as [| x l' Hle _]. subst.
  try rewrite two32_eq in Hle. lia.
Qed.

(** ** One writer and one reader, interleaved *)

Import Contention.


Ltac split_bits :=
  repeat match goal with
         | H : ?x = 0 \/ ?x = 1 |- _ => destruct H; subst
         end.

Ltac unfold_inv :=
  unfold inv, shared_inv, writer_inv, reader_inv, reader_has_s1,
    reader_has_i1, sq, gq, bf in *.

Ltac proj_simpl :=
  cbn [reg wr rd hs wpc wi wv wnxt ws
       rpc i1 s1 tmp pending_a pending_b ret out out_seq last_seq
       published gseq started gs1 finished glast ontime
       DBReg.buf DBReg.seq DBReg.seq_ctr DBReg.idx DBReg.has_
       at_wpc at_rpc with_i1 with_s1 issue_a issue_b land_a land_b retry
       returning reg_buf reg_seq reg_ctr reg_idx reg_has negb] in *.

Ltac break_hyps :=
  repeat match goal with
         | H : _ /\ _ |- _ => destruct H
         end.

(** Discharge the premises of implications among the hypotheses. *)
Ltac forward :=
  repeat match goal with
         | H : ?A -> ?B |- _ =>
             let HA := fresh in
             assert (HA : A)
               by first [ reflexivity | lia | congruence
                        | intros [? ?]; first [discriminate | lia] ];
             specialize (H HA); clear HA
         end.

Ltac case_if :=
  repeat match goal with
         | |- context [if ?a =? ?b then _ else _] =>
             destruct (Z.eqb_spec a b); proj_simpl
         | |- context [if negb ?h then _ else _] =>
             destruct h; proj_simpl
         | |- context [if ?h then _ else _] =>
             destruct h; proj_simpl
         end.

Ltac close :=
  first [ assumption | reflexivity | lia | congruence | tauto
        | solve [intuition (subst; simpl in *; try lia; try congruence)] ].

Ltac finish :=
  break_hyps; split_bits;
  unfold at2, set2 in *; simpl in *;
  subst; try rewrite !wrap32_succ;
  forward;
  repeat split;
  first [ assumption | lia
        | intros; break_hyps; subst; simpl in *;
          first [ assumption | lia | congruence
                | forward; break_hyps; close ] ].

Ltac open_state st :=
  destruct st as [[[[a0 b0] [a1 b1]] [q0 q1] c i h]
                    [wp wi [va vb] wn ws]
                    [rp i1 s1 [ta tb] pa pb ret [oa ob] oseq lseq]
                    [pub [g0 g1] sta gs fin gl ot]].

Lemma inv_init : inv init.
Proof.
  unfold_inv. simpl. unfold at2. simpl.
  intuition (try lia; try discriminate).
Qed.

(** The reader only loads from the register: whatever state the writer is
    in, a reader step keeps the invariant. The final check of [read] is the
    one place where a stamp is compared modulo 2^32. *)
Lemma inv_reader_step : forall st : sys,
  inv st -> inv (reader_step st).
Proof.
  intros st. open_state st.
  unfold reader_step. unfold_inv. proj_simpl.
  destruct rp; proj_simpl; case_if.
  all: destruct wp; proj_simpl.
  all: intro H.
  all: pose proof two32_eq as T32.
  all: solve [finish].
Qed.

Lemma inv_writer_step : forall (gen : Z -> S) (st : sys),
  inv st -> inv (writer_step gen st).
Proof.
  intros gen st. open_state st.
  unfold writer_step. unfold_inv. proj_simpl.
  destruct wp; proj_simpl.
  all: destruct rp; proj_simpl.
  all: intros H.
  all: pose proof two32_eq as T32.
  all: solve [finish].
Qed.

(** A load of the copy changes [tmp] only. *)
Lemma inv_copy_step : forall (f : field) (st : sys),
  inv st -> inv (copy_step f st).
Proof.
  intros f st. open_state st.
  unfold copy_step. proj_simpl.
  destruct f, pa, pb; proj_simpl; try (intro H; exact H).
  all: unfold_inv; proj_simpl; destruct rp; intro H; exact H.
Qed.

Lemma reachable_inv : forall (gen : Z -> S) (st : sys),
  reachable gen st -> inv st.
Proof.
  intros gen st R. induction R as [| who st R IH].
  - apply inv_init.
  - destruct who; simpl.
    + apply inv_writer_step. exact IH.
    + apply inv_reader_step. exact IH.
    + apply inv_copy_step. exact IH.
Qed.

(** Only the [fetch_add] of [write] changes the counter. *)
Lemma seq_ctr_step : forall (gen : Z -> S) (who : thread) (st : sys),
  DBReg.seq_ctr (reg (step gen who st))
  = match who, wpc (wr st) with
    | Writer, W_ctr => wrap32 (DBReg.seq_ctr (reg st) + 1)
    | _, _ => DBReg.seq_ctr (reg st)
    end.
Proof.
  intros gen who st. destruct who as [| | f]; cbn [step].
  - unfold writer_step. destruct (wpc (wr st)); reflexivity.
  - unfold reader_step. destruct (rpc (rd st)); proj_simpl; try reflexivity.
    + destruct (negb (DBReg.has_ (reg st))); reflexivity.
    + destruct (i1 (rd st) =? DBReg.idx (reg st)); reflexivity.
    + destruct (s1 (rd st) =? at2 (DBReg.seq (reg st)) (i1 (rd st)));
        reflexivity.
  - unfold copy_step.
    destruct f, (pending_a (rd st)), (pending_b (rd st)); reflexivity.
Qed.

(** Residues modulo 2^32 keep the order of two integers in the same
    block of 2^32. *)
Lemma wrap32_le : forall a b : Z,
  a <= b -> a / two32 = b / two32 -> wrap32 a <= wrap32 b.
Proof.
  intros a b L E. unfold wrap32.
  assert (T : two32 <> 0) by discriminate.
  pose proof (Z.div_mod a two32 T) as Ha.
  pose proof (Z.div_mod b two32 T) as Hb.
  rewrite E in Ha. lia.
Qed.

Lemma reachable_run : forall (gen : Z -> S) (sched : list thread) (st : sys),
  reachable gen st -> reachable gen (run gen sched st).
Proof.
  intros gen sched. induction sched as [| who sched IH]; intros st H; simpl.
  - exact H.
  - apply IH. apply reach_step. exact H.
Qed.

Lemma S_of_counter_coherent : forall i : Z, coherent (S_of_counter i).
Proof.
  intro i. reflexivity.
Qed.

(** *** The stamp of a slot comes back after 2^32 writes *)

Lemma aba_state_0 : run S_of_counter aba_prefix init = aba_state 0.
Proof.
  vm_compute. reflexivity.
Qed.

(** Two whole writes while the reader is stalled: slot 0, then slot 1. *)
Lemma two_writes :
  forall (gen : Z -> S) (B0 B1 : S) (q0 c w : Z) (v : S) (p : Z),
    run gen (repeat Writer 14) (stalled B0 B1 q0 c w v p)
    = stalled (gen w) (gen (wrap32 (w + 1)))
              (wrap32 (c + 1)) (wrap32 (wrap32 (c + 1) + 1))
              (wrap32 (wrap32 (w + 1) + 1)) (gen (wrap32 (w + 1)))
              (p + 2).
Proof.
  intros. unfold stalled.
  cbv [repeat run fold_left step writer_step
       reg wr rd hs wpc wi wv wnxt ws published gseq started gs1 finished
       glast ontime
       DBReg.buf DBReg.seq DBReg.seq_ctr DBReg.idx DBReg.has_
       at_wpc reg_buf reg_seq reg_ctr reg_idx reg_has].
  change (Z.lxor 1 1) with 0. change (Z.lxor 0 1) with 1.
  cbv [at2 set2]. change (0 =? 0) with true. change (1 =? 0) with false.
  cbv iota. cbv [fst snd].
  destruct (gen w) as [x y]. destruct (gen (wrap32 (w + 1))) as [x' y'].
  f_equal. f_equal; [lia | f_equal; lia].
Qed.

Lemma aba_state_succ : forall n : Z,
  run S_of_counter (repeat Writer 14) (aba_state n) = aba_state (n + 1).
Proof.
  intro n. unfold aba_state. rewrite two_writes.
  rewrite !wrap32_succ.
  f_equal; try (f_equal; f_equal; lia); try (f_equal; lia); lia.
Qed.

Lemma aba_reachable : forall n : Z,
  0 <= n -> reachable S_of_counter (aba_state n).
Proof.
  intros n Hn. pattern n. apply natlike_ind; [| | exact Hn].
  - rewrite <- aba_state_0. apply reachable_run. apply reach_init.
  - intros x Hx IH. unfold Z.succ. rewrite <- aba_state_succ.
    apply reachable_run. exact IH.
Qed.

(** C5 fails on the code, on the run of
    [DBReg.NoTearPattern_CoherentUnderFlip] itself: the writer passes
    [S{i, ~i}], every value coherent, and a read returns true with [a = 0]
    from the first write and [b = ~2] from the third, in two ways.

    The copy takes effect late. The reader copies field [a] after the
    first write and re-loads [idx_] while the load of field [b] is
    pending; the second write runs and the third copies its value into
    slot 1; the reader then finds [seq_[1]] as it was and hands out [tmp],
    whose field [b] is loaded from the slot as it is by then. The read
    returns sequence number 1 while the writer is in its third call.

    The stamp comes back. Every load of the copy takes effect where it is
    issued; the reader is held between its copy and its final check while
    the writer completes 2^32 + 1 writes in all, 2^32 of them after the
    reader loaded the active index, so that slot 1 carries stamp 1 again
    and is the active slot. *)
Theorem C5_reads_can_be_torn :
  (forall i : Z, coherent (S_of_counter i))
  /\ (reachable S_of_counter (run S_of_counter late_copy_sched init)
      /\ rpc (rd (run S_of_counter late_copy_sched init)) = R_ret
      /\ ret (rd (run S_of_counter late_copy_sched init)) = true
      /\ out (rd (run S_of_counter late_copy_sched init)) = (0, 4294967293)
      /\ out_seq (rd (run S_of_counter late_copy_sched init)) = 1
      /\ wi (wr (run S_of_counter late_copy_sched init)) = 2
      /\ published (hs (run S_of_counter late_copy_sched init)) = 2
      /\ ~ coherent (out (rd (run S_of_counter late_copy_sched init))))
  /\ (reachable S_of_counter torn_state
      /\ rpc (rd torn_state) = R_ret
      /\ ret (rd torn_state) = true
      /\ out (rd torn_state) = (0, 4294967293)
      /\ published (hs torn_state) = 2 ^ 32 + 1
      /\ finished (hs torn_state) - started (hs torn_state) = 2 ^ 32
      /\ ontime (hs torn_state) = true
      /\ ~ coherent (out (rd torn_state))).
Proof.
  split; [exact S_of_counter_coherent |]. split.
  - split; [apply reachable_run; apply reach_init |].
    vm_compute. repeat split; try reflexivity. discriminate.
  - split; [apply reachable_run; apply aba_reachable; discriminate |].
    vm_compute. repeat split; try reflexivity. discriminate.
Qed.

(** C6, as stated, fails in two ways. The counter wraps: after 2^32 - 1
    writes a read returns sequence number 2^32 - 1; the next write takes
    the counter from 2^32 - 1 down to 0, and the read after it returns 0.
    A second writer overtakes: both writers enter [write] on the fresh
    register and take their sequence numbers, the writer that took 1
    stamps and publishes after the writer that took 2, and a reader gets
    2, then 1, after two writes. *)
Lemma C6_counterexample_wrap_and_second_writer :
  (let r := DBReg.writes (repeat 7 (Z.to_nat (two32 - 1))) (DBReg.init 0) in
   DBReg.seq_ctr (DBReg.write 7 r) < DBReg.seq_ctr r
   /\ DBReg.read_seqs 0 1 [DBReg.OpRead; DBReg.OpWrite 7; DBReg.OpRead] r
      = [two32 - 1; 0]
   /\ ~ StronglySorted Z.le
          (DBReg.read_seqs 0 1 [DBReg.OpRead; DBReg.OpWrite 7; DBReg.OpRead]
             r))
  /\ (let st :=
        TwoWriters.first
          (TwoWriters.run2 S_of_counter S_of_counter
             TwoWriters.overtaking_sched TwoWriters.init2) in
      rpc (rd st) = R_ret
      /\ ret (rd st) = true
      /\ last_seq (rd st) = 2
      /\ out_seq (rd st) = 1
      /\ out_seq (rd st) < last_seq (rd st)
      /\ DBReg.seq_ctr (reg st) = 2).
Proof.
  split.
  - exact sequence_wraps_to_zero.
  - vm_compute. repeat split; reflexivity.
Qed.

(** C6, amended: with one writer thread and one reader thread, their
    steps interleaved in any order. At no step does the counter go down,
    except at the [fetch_add] that finds it at 2^32 - 1 and takes it to 0;
    every other [fetch_add] raises it by exactly one. A read that returns
    true hands out the stamp of write number [gs1], the caller's
    [last_seq] is the stamp of write number [glast] handed out by the same
    thread's previous successful read (0 before the first), and
    [glast <= gs1]; the sequence number handed out is at least [last_seq]
    whenever the counter has not wrapped between these two writes. *)
Theorem C6_sequence_monotone_until_counter_wraps :
  forall (gen : Z -> S) (who : thread) (st : sys),
    reachable gen st ->
    (DBReg.seq_ctr (reg st) <= DBReg.seq_ctr (reg (step gen who st))
     \/ (who = Writer /\ wpc (wr st) = W_ctr
         /\ DBReg.seq_ctr (reg st) = two32 - 1
         /\ DBReg.seq_ctr (reg (step gen who st)) = 0))
    /\ (who = Writer -> wpc (wr st) = W_ctr ->
        DBReg.seq_ctr (reg st) <> two32 - 1 ->
        DBReg.seq_ctr (reg (step gen who st)) = DBReg.seq_ctr (reg st) + 1)
    /\ (rpc (rd st) = R_ret -> ret (rd st) = true ->
        last_seq (rd st) = wrap32 (glast (hs st))
        /\ out_seq (rd st) = wrap32 (gs1 (hs st))
        /\ 0 <= glast (hs st)
        /\ glast (hs st) <= gs1 (hs st) <= published (hs st)
        /\ (glast (hs st) / two32 = gs1 (hs st) / two32 ->
            last_seq (rd st) <= out_seq (rd st))).
Proof.
  intros gen who st R.
  destruct (reachable_inv gen st R) as [Hs [_ Hr]].
  destruct Hs as [_ [C [_ [_ [_ [_ [_ [_ [L [G0 _]]]]]]]]]].
  pose proof (wrap32_range (published (hs st))) as Rg.
  pose proof (seq_ctr_step gen who st) as E.
  assert (Up : DBReg.seq_ctr (reg st) <> two32 - 1 ->
               wrap32 (DBReg.seq_ctr (reg st) + 1)
               = DBReg.seq_ctr (reg st) + 1)
    by (intro N; apply wrap32_small; lia).
  split; [| split].
  - destruct (Z.eq_dec (DBReg.seq_ctr (reg st)) (two32 - 1)) as [Y | N].
    + destruct who as [| | f]; [destruct (wpc (wr st)) eqn:Hpc | |];
        try (left; rewrite E; apply Z.le_refl).
      right. split; [reflexivity |]. split; [reflexivity |].
      split; [exact Y |]. rewrite E, Y.
      replace (two32 - 1 + 1) with two32 by lia. reflexivity.
    + left. rewrite E.
      destruct who; [destruct (wpc (wr st)) | |]; lia.
  - intros -> Hpc N. rewrite E, Hpc. exact (Up N).
  - intros Hpc Hret.
    unfold reader_inv in Hr. cbv zeta in Hr. rewrite Hpc in Hr.
    destruct (Hr Hret) as [O [_ [G [_ [_ [F P]]]]]].
    split; [exact L |]. split; [exact O |]. split; [exact G0 |].
    split; [lia |].
    intro Ep. rewrite L, O. apply wrap32_le; assumption.
Qed.

Lemma C6_sequence_monotone_until_counter_wraps_witness :
  reachable S_of_counter (run S_of_counter successive_reads_sched init)
  /\ rpc (rd (run S_of_counter successive_reads_sched init)) = R_ret
  /\ ret (rd (run S_of_counter successive_reads_sched init)) = true
  /\ wpc (wr (run S_of_counter successive_reads_sched init)) = W_ctr
  /\ glast (hs (run S_of_counter successive_reads_sched init)) / two32
     = gs1 (hs (run S_of_counter successive_reads_sched init)) / two32
  /\ last_seq (rd (run S_of_counter successive_reads_sched init)) = 1
  /\ out_seq (rd (run S_of_counter successive_reads_sched init)) = 2
  /\ last_seq (rd (run S_of_counter successive_reads_sched init))
     <= out_seq (rd (run S_of_counter successive_reads_sched init)).
Proof.
  assert (R : reachable S_of_counter
                (run S_of_counter successive_reads_sched init))
    by (apply reachable_run; apply reach_init).
  split; [exact R |].
  split; [reflexivity |]. split; [reflexivity |]. split; [reflexivity |].
  split; [reflexivity |]. split; [reflexivity |]. split; [reflexivity |].
  apply (C6_sequence_monotone_until_counter_wraps
           S_of_counter Reader
           (run S_of_counter successive_reads_sched init) R);
    reflexivity.
Defined.

(** * Further properties of the code *)

(** ** The version macros *)

Lemma lor_shifted : forall a b n : Z,
  0 <= n -> 0 <= b < 2 ^ n -> Z.lor (a * 2 ^ n) b = a * 2 ^ n + b.
Proof.
  intros a b n Hn Hb.
  assert (D : Z.land (a * 2 ^ n) b = 0).
  { apply Z.bits_inj'. intros k Hk. rewrite Z.land_spec, Z.bits_0.
    destruct (Z.lt_ge_cases k n) as [L | G].
    - rewrite Z.mul_pow2_bits_low by lia. reflexivity.
    - rewrite <- (Z.mod_small b (2 ^ n)) by lia.
      rewrite Z.mod_pow2_bits_high by lia. apply andb_false_r. }
  rewrite Z.add_nocarry_lxor by exact D.
  symmetry. apply Z.lxor_lor. exact D.
Qed.

Lemma hex_of_sum : forall major minor patch : Z,
  Version.fits major minor patch ->
  Version.hex_of major minor patch = major * 65536 + minor * 256 + patch.
Proof.
  intros major minor patch [[M0 M1] [[m0 m1] [p0 p1]]].
  unfold Version.hex_of.
  rewrite !Z.shiftl_mul_pow2 by lia.
  assert (P8 : 2 ^ 8 = 256) by reflexivity.
  assert (P16 : 2 ^ 16 = 65536) by reflexivity.
  rewrite (lor_shifted major (minor * 2 ^ 8) 16) by lia.
  replace (major * 2 ^ 16 + minor * 2 ^ 8)
    with ((major * 2 ^ 8 + minor) * 2 ^ 8) by lia.
  rewrite lor_shifted by lia. lia.
Qed.

Lemma at_least_of_lex : forall major minor patch MAJ MIN PAT : Z,
  Version.at_least_of major minor patch MAJ MIN PAT = true
  <-> (MAJ < major \/ (MAJ = major /\ (MIN < minor \/ (MIN = minor /\ PAT <= patch)))).
Proof.
  intros. unfold Version.at_least_of.
  rewrite !orb_true_iff, !andb_true_iff.
  rewrite !Z.gtb_lt, !Z.eqb_eq, Z.geb_le. lia.
Qed.

(** X1. For version numbers that fit the packing of [REGBUS_VERSION_HEX]
    (minor and patch below 256, major below 2^15 so that the shift stays
    inside [int]), the test of [REGBUS_VERSION_AT_LEAST] holds exactly when
    the packed number of the requested version is at most that of the
    library's version, and two versions with the same packed number are
    the same version. *)
Theorem version_hex_orders_like_at_least :
  forall major minor patch MAJ MIN PAT : Z,
    Version.fits major minor patch ->
    Version.fits MAJ MIN PAT ->
    (Version.at_least_of major minor patch MAJ MIN PAT = true
     <-> Version.hex_of MAJ MIN PAT <= Version.hex_of major minor patch)
    /\ (Version.hex_of MAJ MIN PAT = Version.hex_of major minor patch ->
        MAJ = major /\ MIN = minor /\ PAT = patch).
Proof.
  intros major minor patch MAJ MIN PAT F1 F2.
  rewrite (hex_of_sum _ _ _ F1), (hex_of_sum _ _ _ F2), at_least_of_lex.
  unfold Version.fits in F1, F2.
  assert (P8 : 2 ^ 8 = 256) by reflexivity.
  assert (P15 : 2 ^ 15 = 32768) by reflexivity.
  lia.
Qed.

Lemma version_hex_orders_like_at_least_witness :
  Version.fits 1 2 3
  /\ Version.fits Version.REGBUS_VERSION_MAJOR Version.REGBUS_VERSION_MINOR
       Version.REGBUS_VERSION_PATCH
  /\ (Version.at_least_of 1 2 3 Version.REGBUS_VERSION_MAJOR
        Version.REGBUS_VERSION_MINOR Version.REGBUS_VERSION_PATCH = true
      <-> Version.REGBUS_VERSION_HEX <= Version.hex_of 1 2 3).
Proof.
  assert (F1 : Version.fits 1 2 3) by (unfold Version.fits; lia).
  assert (F2 : Version.fits Version.REGBUS_VERSION_MAJOR
                 Version.REGBUS_VERSION_MINOR Version.REGBUS_VERSION_PATCH)
    by (unfold Version.fits; cbv; intuition discriminate).
  split; [exact F1 |]. split; [exact F2 |].
  exact (proj1 (version_hex_orders_like_at_least 1 2 3 _ _ _ F1 F2)).
Defined.

(** X2. The comparison of [REGBUS_VERSION_AT_LEAST] is a total order on
    version triples: every version is at least itself, the test is
    transitive, two versions each at least the other are equal, and of any
    two versions one is at least the other. *)
Theorem version_at_least_is_total_order :
  forall a b c d e f g h i : Z,
    Version.at_least_of a b c a b c = true
    /\ (Version.at_least_of a b c d e f = true ->
        Version.at_least_of d e f g h i = true ->
        Version.at_least_of a b c g h i = true)
    /\ (Version.at_least_of a b c d e f = true ->
        Version.at_least_of d e f a b c = true ->
        a = d /\ b = e /\ c = f)
    /\ (Version.at_least_of a b c d e f = true
        \/ Version.at_least_of d e f a b c = true).
Proof.
  intros. rewrite !at_least_of_lex. lia.
Qed.

(** ** Runs of posts and consumes on a command register *)

Lemma subseq_length : forall (T : Type) (l m : list T),
  CmdCalls.subseq l m -> (length l <= length m)%nat.
Proof.
  intros T l m H. induction H; simpl; lia.
Qed.

Lemma consumed_subseq_from :
  forall (T : Type) (calls : list (CmdCalls.call T)) (r : CmdReg.t T) (out : T),
    CmdCalls.subseq
      (CmdCalls.consumed calls r out)
      ((if CmdReg.pending r then [CmdReg.val r] else [])
       ++ CmdCalls.posted calls).
Proof.
  intros T calls. induction calls as [| c rest IH]; intros r out.
  - simpl. rewrite app_nil_r. destruct (CmdReg.pending r).
    + apply CmdCalls.subseq_skip. constructor.
    + constructor.
  - destruct c as [v |].
    + cbn [CmdCalls.consumed CmdCalls.posted].
      specialize (IH (CmdReg.post v r) out). simpl in IH.
      destruct (CmdReg.pending r); simpl.
      * apply CmdCalls.subseq_skip. exact IH.
      * exact IH.
    + cbn [CmdCalls.consumed CmdCalls.posted].
      unfold CmdReg.consume, CmdReg.pending in *.
      destruct (CmdReg.ready r) eqn:E; simpl.
      * apply CmdCalls.subseq_keep.
        apply (IH {| CmdReg.val := CmdReg.val r; CmdReg.ready := false |}).
      * specialize (IH r out). rewrite E in IH. exact IH.
Qed.

(** X3. Over any run of [post] and [consume] calls on a fresh [CmdReg],
    the values handed out by the successful consumes are, in order, a
    subsequence of the values posted: nothing is delivered that was not
    posted, nothing is delivered twice, nothing out of order; in
    particular there are no more successful consumes than posts. *)
Theorem consumed_values_are_posted_once :
  forall (T : Type) (T0 : T) (calls : list (CmdCalls.call T)) (out : T),
    CmdCalls.subseq (CmdCalls.consumed calls (CmdReg.init T0) out)
                    (CmdCalls.posted calls)
    /\ (length (CmdCalls.consumed calls (CmdReg.init T0) out)
        <= length (CmdCalls.posted calls))%nat.
Proof.
  intros T T0 calls out.
  pose proof (consumed_subseq_from T calls (CmdReg.init T0) out) as H.
  simpl in H. split; [exact H | apply subseq_length; exact H].
Qed.

(** ** What the two slots hold *)

Lemma write_effect : forall (T : Type) (r : DBReg.t T) (v : T),
  DBReg.wf r ->
  DBReg.idx (DBReg.write v r) = 1 - DBReg.idx r
  /\ at2 (DBReg.buf (DBReg.write v r)) (1 - DBReg.idx r) = v
  /\ at2 (DBReg.seq (DBReg.write v r)) (1 - DBReg.idx r)
     = wrap32 (DBReg.seq_ctr r + 1)
  /\ at2 (DBReg.buf (DBReg.write v r)) (DBReg.idx r)
     = at2 (DBReg.buf r) (DBReg.idx r)
  /\ at2 (DBReg.seq (DBReg.write v r)) (DBReg.idx r)
     = at2 (DBReg.seq r) (DBReg.idx r).
Proof.
  intros T r v W.
  assert (N : (1 - DBReg.idx r =? 0) <> (DBReg.idx r =? 0))
    by (destruct W as [-> | ->]; discriminate).
  unfold DBReg.write. simpl. rewrite (lxor_flip _ W).
  rewrite !at2_set2_same, !(at2_set2_other _ _ _ _ _ N).
  repeat split.
Qed.

(** X4. After at least two writes on a fresh [DBReg], the active slot holds
    the last value written with the last sequence number, and the other
    slot still holds the value written just before it with the sequence
    number before. *)
Theorem double_buffer_keeps_last_two_writes :
  forall (T : Type) (T0 : T) (vs : list T) (u v : T),
    let r := DBReg.writes (vs ++ [u; v]) (DBReg.init T0) in
    let n := Z.of_nat (length vs) in
    at2 (DBReg.buf r) (DBReg.idx r) = v
    /\ at2 (DBReg.seq r) (DBReg.idx r) = wrap32 (n + 2)
    /\ at2 (DBReg.buf r) (1 - DBReg.idx r) = u
    /\ at2 (DBReg.seq r) (1 - DBReg.idx r) = wrap32 (n + 1).
Proof.
  intros T T0 vs u v. cbv zeta.
  replace (vs ++ [u; v]) with ((vs ++ [u]) ++ [v])
    by (rewrite <- app_assoc; reflexivity).
  rewrite (writes_snoc T (vs ++ [u]) v).
  rewrite (writes_snoc T vs u).
  set (r0 := DBReg.writes vs (DBReg.init T0)).
  assert (W0 : DBReg.wf r0) by (apply wf_writes, wf_init).
  assert (C0 : DBReg.seq_ctr r0 = wrap32 (Z.of_nat (length vs)))
    by apply seq_ctr_writes_init.
  set (r1 := DBReg.write u r0).
  assert (W1 : DBReg.wf r1) by (apply wf_write; exact W0).
  destruct (write_effect T r0 u W0) as [I1 [B1 [Q1 _]]].
  destruct (write_effect T r1 v W1) as [I2 [B2 [Q2 [B3 Q3]]]].
  fold r1 in I1, B1, Q1.
  assert (C1 : DBReg.seq_ctr r1 = wrap32 (Z.of_nat (length vs) + 1))
    by (unfold r1; simpl; rewrite C0; apply wrap32_succ).
  rewrite I2.
  replace (1 - (1 - DBReg.idx r1)) with (DBReg.idx r1) by lia.
  rewrite B2, Q2, B3, Q3, C1, wrap32_succ.
  rewrite I1, B1, Q1, C0, wrap32_succ.
  repeat split. f_equal. lia.
Qed.

(** ** The registry over any list of keys *)

Section RegistryMore.
Variable Key : Type.
Variable Key_eq_dec : forall a b : Key, {a = b} + {a <> b}.
Variable value_t : Key -> Type.
Variable kind : Key -> Kind.
Variable zero : forall K : Key, value_t K.

Local Abbreviation tuple := (Registry.tuple Key value_t kind).
Local Abbreviation storage_t := (Registry.storage_t Key value_t kind).
Local Abbreviation get := (Registry.get Key Key_eq_dec value_t kind).
Local Abbreviation update := (Registry.update Key Key_eq_dec value_t kind).
Local Abbreviation declared := (Registry.declared Key Key_eq_dec).
Local Abbreviation rwrite := (Registry.write Key Key_eq_dec value_t kind).
Local Abbreviation rread := (Registry.read Key Key_eq_dec value_t kind).
Local Abbreviation rhas := (Registry.has Key Key_eq_dec value_t kind).
Local Abbreviation rpost := (Registry.post Key Key_eq_dec value_t kind).
Local Abbreviation rconsume := (Registry.consume Key Key_eq_dec value_t kind).
Local Abbreviation rinit := (Registry.init Key value_t kind zero).

Lemma declared_In : forall (K : Key) (Keys : list Key),
  declared K Keys = true <-> In K Keys.
Proof.
  intros K Keys. unfold Registry.declared.
  induction Keys as [| Head Tail IH]; simpl.
  - split; [discriminate | contradiction].
  - destruct (Key_eq_dec K Head) as [e | n].
    + split; [intros _; left; symmetry; exact e | reflexivity].
    + destruct (Registry.index_of Key Key_eq_dec K Tail).
      * split; [intros _; right; apply IH; reflexivity | reflexivity].
      * split; [discriminate |].
        intros [E | I]; [exfalso; apply n; symmetry; exact E |].
        apply IH. exact I.
Qed.

Lemma is_data_kind : forall K : Key,
  Registry.is_data Key kind K = true <-> kind K = Data.
Proof.
  intro K. unfold Registry.is_data. destruct (kind K); split; congruence.
Qed.

Lemma is_cmd_kind : forall K : Key,
  Registry.is_cmd Key kind K = true <-> kind K = Cmd.
Proof.
  intro K. unfold Registry.is_cmd. destruct (kind K); split; congruence.
Qed.

Lemma as_data_some : forall (K : Key) (r : storage_t K),
  kind K = Data <-> exists d, Registry.as_data Key value_t kind K r = Some d.
Proof.
  intro K. unfold Registry.as_data, Registry.storage_t.
  destruct (kind K); intro r; split.
  - intros _. eexists. reflexivity.
  - reflexivity.
  - discriminate.
  - intros [d H]. discriminate.
Qed.

Lemma as_cmd_some : forall (K : Key) (r : storage_t K),
  kind K = Cmd <-> exists c, Registry.as_cmd Key value_t kind K r = Some c.
Proof.
  intro K. unfold Registry.as_cmd, Registry.storage_t.
  destruct (kind K); intro r; split.
  - discriminate.
  - intros [d H]. discriminate.
  - intros _. eexists. reflexivity.
  - reflexivity.
Qed.

Lemma dbreg_read_some : forall (T : Type) (fuel : nat) (d : DBReg.t T) (out : T)
    (seq : option Z),
  DBReg.read (Datatypes.S fuel) d out seq <> None.
Proof.
  intros. unfold DBReg.read. rewrite read_loop_once.
  destruct (negb (DBReg.has_ d)); discriminate.
Qed.

(** X5. Which calls a registry accepts: [write], [read] and [has] for
    exactly the keys of kind [Data] that are in the key list, [post] and
    [consume] for exactly the keys of kind [Cmd] that are in the key
    list ([std::enable_if_t] on the kind, the [static_assert] of
    [index_of] on the list). An accepted [read] returns. *)
Theorem registry_calls_available_iff_kind_and_listed :
  forall (Keys : list Key) (K : Key) (st : tuple Keys) (v out : value_t K)
         (seq : option Z) (fuel : nat),
    (rwrite K Keys v st <> None <-> kind K = Data /\ In K Keys)
    /\ (rread (Datatypes.S fuel) K Keys st out seq <> None <-> kind K = Data /\ In K Keys)
    /\ (rhas K Keys st <> None <-> kind K = Data /\ In K Keys)
    /\ (rpost K Keys v st <> None <-> kind K = Cmd /\ In K Keys)
    /\ (rconsume K Keys st out <> None <-> kind K = Cmd /\ In K Keys).
Proof.
  intros Keys K st v out seq fuel.
  pose proof (declared_In K Keys) as DI.
  pose proof (declared_get Key Key_eq_dec value_t kind K Keys st) as DG.
  pose proof (is_data_kind K) as ID. pose proof (is_cmd_kind K) as IC.
  split; [| split; [| split; [| split]]].
  - unfold Registry.write.
    destruct (Registry.is_data Key kind K); destruct (declared K Keys);
      simpl; split; intro H; try (exfalso; apply H; reflexivity);
      try discriminate; try tauto.
    + destruct H as [_ H]. apply DI in H. discriminate.
    + destruct H as [H _]. apply ID in H. discriminate.
    + destruct H as [H _]. apply ID in H. discriminate.
  - unfold Registry.read.
    destruct (get K Keys st) as [r |] eqn:G.
    + assert (D : In K Keys) by (apply DI, DG; exists r; reflexivity).
      pose proof (as_data_some K r) as AD.
      destruct (Registry.as_data Key value_t kind K r) as [d |].
      * split; [intros _; split; [apply AD; exists d; reflexivity | exact D] |].
        intros _. apply dbreg_read_some.
      * split; [intro H; exfalso; apply H; reflexivity |].
        intros [H _]. apply AD in H. destruct H as [d H]. discriminate.
    + split; [intro H; exfalso; apply H; reflexivity |].
      intros [_ H]. apply DI, DG in H. destruct H as [r H]. discriminate.
  - unfold Registry.has.
    destruct (get K Keys st) as [r |] eqn:G.
    + assert (D : In K Keys) by (apply DI, DG; exists r; reflexivity).
      pose proof (as_data_some K r) as AD.
      destruct (Registry.as_data Key value_t kind K r) as [d |].
      * split; [intros _; split; [apply AD; exists d; reflexivity | exact D] |].
        discriminate.
      * split; [intro H; exfalso; apply H; reflexivity |].
        intros [H _]. apply AD in H. destruct H as [d H]. discriminate.
    + split; [intro H; exfalso; apply H; reflexivity |].
      intros [_ H]. apply DI, DG in H. destruct H as [r H]. discriminate.
  - unfold Registry.post.
    destruct (Registry.is_cmd Key kind K); destruct (declared K Keys);
      simpl; split; intro H; try (exfalso; apply H; reflexivity);
      try discriminate; try tauto.
    + destruct H as [_ H]. apply DI in H. discriminate.
    + destruct H as [H _]. apply IC in H. discriminate.
    + destruct H as [H _]. apply IC in H. discriminate.
  - unfold Registry.consume.
    destruct (get K Keys st) as [r |] eqn:G.
    + assert (D : In K Keys) by (apply DI, DG; exists r; reflexivity).
      pose proof (as_cmd_some K r) as AC.
      destruct (Registry.as_cmd Key value_t kind K r) as [c |].
      * split; [intros _; split; [apply AC; exists c; reflexivity | exact D] |].
        destruct (CmdReg.consume c out) as [[ok o] c']. discriminate.
      * split; [intro H; exfalso; apply H; reflexivity |].
        intros [H _]. apply AC in H. destruct H as [d H]. discriminate.
    + split; [intro H; exfalso; apply H; reflexivity |].
      intros [_ H]. apply DI, DG in H. destruct H as [r H]. discriminate.
Qed.


Lemma get_init : forall (K : Key) (Keys : list Key),
  In K Keys ->
  get K Keys (rinit Keys) = Some (Registry.storage_init Key value_t kind zero K).
Proof.
  intros K Keys. induction Keys as [| Head Tail IH]; intro H; simpl.
  - contradiction.
  - destruct (Key_eq_dec K Head) as [e | n].
    + destruct e. reflexivity.
    + destruct H as [E | I]; [exfalso; apply n; symmetry; exact E |].
      apply IH. exact I.
Qed.

Lemma update_same_value :
  forall (K : Key) (Keys : list Key) (f : storage_t K -> storage_t K)
         (st : tuple Keys),
    (forall r, get K Keys st = Some r -> f r = r) ->
    update K Keys f st = st.
Proof.
  intros K Keys f. induction Keys as [| Head Tail IH]; intros st H; simpl.
  - reflexivity.
  - simpl in H. destruct (Key_eq_dec K Head) as [e | n].
    + destruct e. unfold eq_rect_r in *. simpl in *.
      destruct st as [a b]. simpl in *. f_equal. apply H. reflexivity.
    + rewrite (IH (snd st) H). destruct st; reflexivity.
Qed.

Lemma on_cmd_const : forall (K : Key) (r : storage_t K)
    (c : CmdReg.t (value_t K)),
  Registry.as_cmd Key value_t kind K r = Some c ->
  Registry.on_cmd Key value_t kind K (fun _ => c) r = r.
Proof.
  intro K. unfold Registry.as_cmd, Registry.on_cmd, Registry.storage_t.
  destruct (kind K); intros r c H; [reflexivity | congruence].
Qed.

Lemma as_data_init : forall K : Key,
  kind K = Data ->
  Registry.as_data Key value_t kind K
    (Registry.storage_init Key value_t kind zero K)
  = Some (DBReg.init (zero K)).
Proof.
  intro K. unfold Registry.as_data, Registry.storage_init, Registry.storage_t.
  destruct (kind K); [reflexivity | discriminate].
Qed.

Lemma as_cmd_init : forall K : Key,
  kind K = Cmd ->
  Registry.as_cmd Key value_t kind K
    (Registry.storage_init Key value_t kind zero K)
  = Some (CmdReg.init (zero K)).
Proof.
  intro K. unfold Registry.as_cmd, Registry.storage_init, Registry.storage_t.
  destruct (kind K); [discriminate | reflexivity].
Qed.

(** X6. In a default-constructed registry, for every listed key: [read]
    returns false and leaves [out] and the sequence cell alone and [has]
    is false (kind [Data]); [consume] returns false and leaves [out] and
    the registry alone (kind [Cmd]). *)
Theorem fresh_registry_holds_no_value :
  forall (Keys : list Key) (K : Key) (out : value_t K) (seq : option Z)
         (fuel : nat),
    In K Keys ->
    (kind K = Data ->
     rread fuel K Keys (rinit Keys) out seq = Some (false, out, seq)
     /\ rhas K Keys (rinit Keys) = Some false)
    /\ (kind K = Cmd ->
        rconsume K Keys (rinit Keys) out = Some (false, out, rinit Keys)).
Proof.
  intros Keys K out seq fuel I. split; intro Hk.
  - unfold Registry.read, Registry.has.
    rewrite (get_init K Keys I), (as_data_init K Hk). split; reflexivity.
  - unfold Registry.consume.
    rewrite (get_init K Keys I), (as_cmd_init K Hk). simpl.
    rewrite update_same_value; [reflexivity |].
    intros r G. rewrite (get_init K Keys I) in G. injection G as <-.
    apply on_cmd_const. apply as_cmd_init. exact Hk.
Qed.

(** X7. In any registry state and for every listed key: after [write<K>(v)],
    [has<K>()] is true and [read<K>] returns true with [v]; after
    [post<K>(v)], [consume<K>] returns true with [v] and a second
    [consume<K>] returns false, leaving [out] and the registry alone. *)
Theorem registry_round_trips :
  forall (Keys : list Key) (K : Key) (st : tuple Keys) (v out : value_t K)
         (fuel : nat),
    In K Keys ->
    (kind K = Data ->
     exists st', rwrite K Keys v st = Some st'
       /\ rhas K Keys st' = Some true
       /\ rread (Datatypes.S fuel) K Keys st' out None = Some (true, v, None))
    /\ (kind K = Cmd ->
        exists st' st'',
          rpost K Keys v st = Some st'
          /\ rconsume K Keys st' out = Some (true, v, st'')
          /\ rconsume K Keys st'' out = Some (false, out, st'')).
Proof.
  intros Keys K st v out fuel I.
  assert (Dcl : declared K Keys = true) by (apply declared_In; exact I).
  destruct (proj1 (declared_get Key Key_eq_dec value_t kind K Keys st) Dcl)
    as [r G].
  split; intro Hk.
  - destruct (proj1 (as_data_some K r) Hk) as [d V].
    unfold Registry.write.
    rewrite (proj2 (is_data_kind K) Hk), Dcl. simpl.
    eexists. split; [reflexivity |].
    unfold Registry.has, Registry.read.
    rewrite get_update_same, G. simpl.
    rewrite as_data_on_data, V. simpl.
    split; [reflexivity |].
    rewrite read_after_write. reflexivity.
  - destruct (proj1 (as_cmd_some K r) Hk) as [c V].
    unfold Registry.post.
    rewrite (proj2 (is_cmd_kind K) Hk), Dcl. simpl.
    eexists. eexists. split; [reflexivity |].
    unfold Registry.consume at 1.
    rewrite get_update_same, G. simpl.
    rewrite as_cmd_on_cmd, V. simpl.
    split; [reflexivity |].
    unfold Registry.consume.
    rewrite get_update_same, get_update_same, G. simpl.
    rewrite as_cmd_on_cmd, as_cmd_on_cmd, V. simpl.
    f_equal. f_equal.
    apply update_same_value.
    intros r' G'. rewrite get_update_same, get_update_same, G in G'.
    simpl in G'. injection G' as <-.
    apply on_cmd_const. rewrite as_cmd_on_cmd, as_cmd_on_cmd, V. reflexivity.
Qed.

Lemma update_commute :
  forall (K1 K2 : Key) (Keys : list Key)
         (f : storage_t K1 -> storage_t K1) (g : storage_t K2 -> storage_t K2)
         (st : tuple Keys),
    K1 <> K2 ->
    update K1 Keys f (update K2 Keys g st)
    = update K2 Keys g (update K1 Keys f st).
Proof.
  intros K1 K2 Keys f g st D. induction Keys as [| Head Tail IH]; simpl.
  - reflexivity.
  - destruct (Key_eq_dec K1 Head) as [e1 | n1];
      destruct (Key_eq_dec K2 Head) as [e2 | n2]; simpl.
    + exfalso. apply D. congruence.
    + reflexivity.
    + reflexivity.
    + rewrite IH. reflexivity.
Qed.

(** X8. Writes and posts for two different keys commute: either order of
    the two calls leaves the same registry (and either order is rejected
    when one of the calls is). *)
Theorem calls_for_distinct_keys_commute :
  forall (Keys : list Key) (K1 K2 : Key) (st : tuple Keys)
         (v1 : value_t K1) (v2 : value_t K2),
    K1 <> K2 ->
    and_then (rwrite K1 Keys v1 st) (rwrite K2 Keys v2)
    = and_then (rwrite K2 Keys v2 st) (rwrite K1 Keys v1)
    /\ and_then (rwrite K1 Keys v1 st) (rpost K2 Keys v2)
       = and_then (rpost K2 Keys v2 st) (rwrite K1 Keys v1)
    /\ and_then (rpost K1 Keys v1 st) (rpost K2 Keys v2)
       = and_then (rpost K2 Keys v2 st) (rpost K1 Keys v1).
Proof.
  intros Keys K1 K2 st v1 v2 D.
  unfold Registry.write, Registry.post.
  destruct (Registry.is_data Key kind K1), (Registry.is_data Key kind K2),
    (Registry.is_cmd Key kind K1), (Registry.is_cmd Key kind K2),
    (declared K1 Keys), (declared K2 Keys); simpl;
    repeat split; try reflexivity;
    f_equal;
    first [ apply update_commute; exact D
          | symmetry; apply update_commute; exact D ].
Qed.

Lemma index_of_none : forall (K : Key) (Keys : list Key),
  Registry.index_of Key Key_eq_dec K Keys = None <-> ~ In K Keys.
Proof.
  intros K Keys. pose proof (declared_In K Keys) as D.
  unfold Registry.declared in D.
  destruct (Registry.index_of Key Key_eq_dec K Keys).
  - split; [discriminate |]. intro N. exfalso. apply N, D. reflexivity.
  - split; [| reflexivity]. intros _ I. apply D in I. discriminate.
Qed.

(** X9. [detail::index_of] yields [i] exactly when [i] is the first
    position of the key in the key list, and has no value (the
    [static_assert]) exactly when the key is not in the list. With a key
    listed twice, every call goes to the first member. *)
Theorem index_of_is_first_position :
  forall (K : Key) (Keys : list Key),
    (forall i : nat,
       Registry.index_of Key Key_eq_dec K Keys = Some i
       <-> nth_error Keys i = Some K
           /\ forall j : nat, (j < i)%nat -> nth_error Keys j <> Some K)
    /\ (Registry.index_of Key Key_eq_dec K Keys = None <-> ~ In K Keys).
Proof.
  intros K Keys. split; [| apply index_of_none].
  intro i. split; [apply index_of_first |].
  intros [N F].
  destruct (Registry.index_of Key Key_eq_dec K Keys) as [i' |] eqn:E.
  - destruct (index_of_first Key Key_eq_dec K Keys i' E) as [N' F'].
    f_equal.
    destruct (Nat.lt_trichotomy i' i) as [L | [L | L]].
    + exfalso. apply (F i' L). exact N'.
    + exact L.
    + exfalso. apply (F' i L). exact N.
  - exfalso. apply index_of_none in E. apply E.
    apply nth_error_In with (n := i). exact N.
Qed.

End RegistryMore.

Lemma fresh_registry_holds_no_value_witness :
  In TestRegistry.A TestRegistry.Keys
  /\ Registry.has TestRegistry.K TestRegistry.K_eq_dec TestRegistry.value_t
       TestRegistry.kind TestRegistry.A TestRegistry.Keys TestRegistry.fresh
     = Some false.
Proof.
  assert (I : In TestRegistry.A TestRegistry.Keys) by (left; reflexivity).
  split; [exact I |].
  exact (proj2 (proj1 (fresh_registry_holds_no_value
                         TestRegistry.K TestRegistry.K_eq_dec
                         TestRegistry.value_t TestRegistry.kind
                         TestRegistry.zero TestRegistry.Keys TestRegistry.A
                         0 None 0%nat I) eq_refl)).
Defined.

Lemma registry_round_trips_witness :
  In TestRegistry.B TestRegistry.Keys
  /\ exists st' : TestRegistry.R,
       Registry.write TestRegistry.K TestRegistry.K_eq_dec
         TestRegistry.value_t TestRegistry.kind TestRegistry.B
         TestRegistry.Keys 7 TestRegistry.fresh = Some st'
       /\ Registry.has TestRegistry.K TestRegistry.K_eq_dec
            TestRegistry.value_t TestRegistry.kind TestRegistry.B
            TestRegistry.Keys st' = Some true
       /\ Registry.read TestRegistry.K TestRegistry.K_eq_dec
            TestRegistry.value_t TestRegistry.kind 1 TestRegistry.B
            TestRegistry.Keys st' 0 None = Some (true, 7, None).
Proof.
  assert (I : In TestRegistry.B TestRegistry.Keys)
    by (right; left; reflexivity).
  split; [exact I |].
  exact (proj1 (registry_round_trips
                  TestRegistry.K TestRegistry.K_eq_dec TestRegistry.value_t
                  TestRegistry.kind TestRegistry.Keys TestRegistry.B
                  TestRegistry.fresh 7 0 0%nat I) eq_refl).
Defined.

Lemma calls_for_distinct_keys_commute_witness :
  TestRegistry.A <> TestRegistry.CMD_GO
  /\ and_then
       (Registry.write TestRegistry.K TestRegistry.K_eq_dec
          TestRegistry.value_t TestRegistry.kind TestRegistry.A
          TestRegistry.Keys 42 TestRegistry.fresh)
       (Registry.post TestRegistry.K TestRegistry.K_eq_dec
          TestRegistry.value_t TestRegistry.kind TestRegistry.CMD_GO
          TestRegistry.Keys true)
     = and_then
         (Registry.post TestRegistry.K TestRegistry.K_eq_dec
            TestRegistry.value_t TestRegistry.kind TestRegistry.CMD_GO
            TestRegistry.Keys true TestRegistry.fresh)
         (Registry.write TestRegistry.K TestRegistry.K_eq_dec
            TestRegistry.value_t TestRegistry.kind TestRegistry.A
            TestRegistry.Keys 42).
Proof.
  assert (D : TestRegistry.A <> TestRegistry.CMD_GO) by discriminate.
  split; [exact D |].
  exact (proj1 (proj2 (calls_for_distinct_keys_commute
                         TestRegistry.K TestRegistry.K_eq_dec
                         TestRegistry.value_t TestRegistry.kind
                         TestRegistry.Keys TestRegistry.A TestRegistry.CMD_GO
                         TestRegistry.fresh 42 true D))).
Defined.

(** ** Values and sequence numbers under contention *)


Section StampedFacts.
Variable gen : Z -> S.



















End StampedFacts.



(** X11. Under any interleaving, while fewer than 2^32 writes have taken a
    sequence number: the sequence number of a successful read is at least
    the number of writes that had taken theirs when the read's last
    attempt loaded the active index, minus one (the write then in
    progress), and at most the number when its final check passed. *)
Theorem read_is_at_most_one_write_stale :
  forall (gen : Z -> S) (st : sys),
    reachable gen st ->
    rpc (rd st) = R_ret ->
    ret (rd st) = true ->
    published (hs st) < two32 ->
    started (hs st) - 1 <= out_seq (rd st) <= finished (hs st).
Proof.
  intros gen st R Hpc Hret B.
  destruct (reachable_inv gen st R) as [_ [_ Hr]].
  unfold reader_inv in Hr. cbv zeta in Hr. rewrite Hpc in Hr.
  destruct (Hr Hret) as [O [P [_ [_ [S1 [F L]]]]]].
  rewrite O, wrap32_small by lia. lia.
Qed.

Lemma read_is_at_most_one_write_stale_witness :
  reachable S_of_counter (run S_of_counter quiet_sched init)
  /\ rpc (rd (run S_of_counter quiet_sched init)) = R_ret
  /\ ret (rd (run S_of_counter quiet_sched init)) = true
  /\ published (hs (run S_of_counter quiet_sched init)) < two32
  /\ started (hs (run S_of_counter quiet_sched init)) - 1
     <= out_seq (rd (run S_of_counter quiet_sched init))
     <= finished (hs (run S_of_counter quiet_sched init)).
Proof.
  assert (R : reachable S_of_counter (run S_of_counter quiet_sched init))
    by (apply reachable_run; apply reach_init).
  assert (P : rpc (rd (run S_of_counter quiet_sched init)) = R_ret)
    by reflexivity.
  assert (T : ret (rd (run S_of_counter quiet_sched init)) = true)
    by reflexivity.
  assert (B : published (hs (run S_of_counter quiet_sched init)) < two32)
    by reflexivity.
  split; [exact R |]. split; [exact P |].
  split; [exact T |]. split; [exact B |].
  exact (read_is_at_most_one_write_stale
           S_of_counter (run S_of_counter quiet_sched init) R P T B).
Defined.

(** X12. Under any interleaving the code never indexes [buf_] or [seq_]
    outside 0..1: [idx_] is 0 or 1, the writer's [nxt] is the other slot
    for as long as it is used, and the reader's [i1] is 0 or 1 for as long
    as it is used. *)
Theorem indices_stay_in_range :
  forall (gen : Z -> S) (st : sys),
    reachable gen st ->
    (DBReg.idx (reg st) = 0 \/ DBReg.idx (reg st) = 1)
    /\ match wpc (wr st) with
       | W_idx | W_has => True
       | W_copy_a | W_copy_b | W_ctr | W_seq | W_flip =>
           wnxt (wr st) = 1 - DBReg.idx (reg st)
       end
    /\ match rpc (rd st) with
       | R_has | R_idx1 | R_ret => True
       | R_seq1 | R_copy_a | R_copy_b | R_idx2 | R_seq2 =>
           i1 (rd st) = 0 \/ i1 (rd st) = 1
       end.
Proof.
  intros gen st R.
  destruct (reachable_inv gen st R) as [[Hi _] [Hw Hr]].
  split; [exact Hi |]. split.
  - unfold writer_inv in Hw. cbv zeta in Hw.
    destruct (wpc (wr st)); try exact I; tauto.
  - unfold reader_inv, reader_has_s1, reader_has_i1 in Hr. cbv zeta in Hr.
    destruct (rpc (rd st)); try exact I; tauto.
Qed.

Lemma indices_stay_in_range_witness :
  reachable S_of_counter (run S_of_counter aba_prefix init)
  /\ (i1 (rd (run S_of_counter aba_prefix init)) = 0
      \/ i1 (rd (run S_of_counter aba_prefix init)) = 1).
Proof.
  assert (R : reachable S_of_counter (run S_of_counter aba_prefix init))
    by (apply reachable_run; apply reach_init).
  split; [exact R |].
  exact (proj2 (proj2 (indices_stay_in_range
                         S_of_counter (run S_of_counter aba_prefix init) R))).
Defined.

(** ** Calls that run undisturbed *)

Ltac reader_cbn :=
  cbn [repeat run fold_left step reader_step
       reg wr rd hs rpc Contention.i1 Contention.s1 tmp pending_a pending_b
       Contention.ret Contention.out out_seq last_seq
       published gseq started gs1 finished glast ontime
       DBReg.buf DBReg.seq DBReg.seq_ctr DBReg.idx DBReg.has_
       at_rpc with_i1 with_s1 issue_a issue_b retry returning settled
       negb fst snd].

Ltac reader_runs n :=
  exists n; split; [lia |];
  reader_cbn;
  repeat (match goal with
          | E : ?b = _ |- context [if ?b then _ else _] => rewrite E
          | |- context [if ?a =? ?a then _ else _] => rewrite Z.eqb_refl
          end;
          reader_cbn);
  reflexivity.

(** X13. From any state of the system, a [read] in progress returns within
    ten of the reader's own steps if the writer takes none meanwhile: the
    attempt in progress may fail, the next one cannot. *)
Theorem read_returns_once_writer_pauses :
  forall (gen : Z -> S) (st : sys),
    exists n : nat,
      (n <= 10)%nat
      /\ rpc (rd (run gen (repeat Reader n) st)) = R_ret.
Proof.
  intros gen st.
  destruct st as [[bufs seqs c i h] w
                    [rp i1 s1 t pa pb ret out oseq lseq] hi].
  destruct h;
    destruct (i1 =? i) eqn:E1;
    destruct (s1 =? at2 seqs i1) eqn:E2;
    destruct rp;
    first [ reader_runs 0%nat | reader_runs 1%nat | reader_runs 2%nat
          | reader_runs 3%nat | reader_runs 4%nat | reader_runs 5%nat
          | reader_runs 6%nat | reader_runs 7%nat | reader_runs 8%nat
          | reader_runs 9%nat | reader_runs 10%nat ].
Qed.

Lemma set2_set2 : forall (A : Type) (a : arr2 A) (i : Z) (x y : A),
  set2 (set2 a i x) i y = set2 a i y.
Proof.
  intros A a i x y. unfold set2. destruct (i =? 0); reflexivity.
Qed.

(** X14. The seven statements of the writer, run from the start of a call
    with no step of the reader between them, change the register exactly
    as [DBReg.write] does with the value generated for the writer's
    counter; they end at the start of the next call with the counter
    advanced, and leave the reader's locals alone. *)
Theorem uninterrupted_write_is_write :
  forall (gen : Z -> S) (st : sys),
    wpc (wr st) = W_idx ->
    reg (run gen (repeat Writer 7) st)
    = DBReg.write (gen (wi (wr st))) (reg st)
    /\ wpc (wr (run gen (repeat Writer 7) st)) = W_idx
    /\ wi (wr (run gen (repeat Writer 7) st)) = wrap32 (wi (wr st) + 1)
    /\ rd (run gen (repeat Writer 7) st) = rd st.
Proof.
  intros gen st Hpc.
  destruct st as [[bufs seqs c i h] [wp w v n s] r hi].
  cbn [wr wpc] in Hpc. subst wp.
  cbn [repeat run fold_left step writer_step reg wr rd hs wpc wi wv wnxt ws
       published gseq started gs1 finished glast ontime
       DBReg.buf DBReg.seq DBReg.seq_ctr DBReg.idx DBReg.has_
       reg_buf reg_seq reg_ctr reg_idx reg_has at_wpc].
  split; [| split; [reflexivity | split; reflexivity]].
  unfold DBReg.write.
  cbn [DBReg.buf DBReg.seq DBReg.seq_ctr DBReg.idx DBReg.has_].
  rewrite at2_set2_same, set2_set2. cbn [fst snd].
  destruct (gen w) as [a b]. reflexivity.
Qed.

Lemma uninterrupted_write_is_write_witness :
  wpc (wr init) = W_idx
  /\ reg (run S_of_counter (repeat Writer 7) init)
     = DBReg.write (S_of_counter 0) (reg init).
Proof.
  split; [reflexivity |].
  exact (proj1 (uninterrupted_write_is_write S_of_counter init eq_refl)).
Defined.

(** X15. The statements of the reader, run from the start of a call with no
    step of the writer between them, return within seven steps what
    [DBReg.read] returns in a single iteration of its loop: the same
    result, the same [out] and the same [*out_seq]; the register and the
    writer's locals are unchanged. *)
Theorem uninterrupted_read_is_read :
  forall (gen : Z -> S) (st : sys),
    rpc (rd st) = R_has ->
    exists n : nat,
      (n <= 7)%nat
      /\ rpc (rd (run gen (repeat Reader n) st)) = R_ret
      /\ reg (run gen (repeat Reader n) st) = reg st
      /\ wr (run gen (repeat Reader n) st) = wr st
      /\ DBReg.read 1 (reg st) (out (rd st)) (Some (out_seq (rd st)))
         = Some (ret (rd (run gen (repeat Reader n) st)),
                 out (rd (run gen (repeat Reader n) st)),
                 Some (out_seq (rd (run gen (repeat Reader n) st)))).
Proof.
  intros gen st Hpc.
  destruct st as [[bufs seqs c i h] w
                    [rp i1 s1 t pa pb ret out oseq lseq] hi].
  cbn [rd rpc] in Hpc. subst rp.
  destruct h.
  - exists 7%nat. split; [lia |].
    repeat (progress (reader_cbn; rewrite ?Z.eqb_refl)).
    repeat (split; [reflexivity |]).
    unfold DBReg.read, DBReg.read_loop.
    cbn [DBReg.buf DBReg.seq DBReg.seq_ctr DBReg.idx DBReg.has_ negb].
    rewrite !Z.eqb_refl. cbn [andb].
    destruct (at2 bufs i) as [a b]. reflexivity.
  - exists 1%nat. split; [lia |]. repeat (split; [reflexivity |]).
    reflexivity.
Qed.

Lemma uninterrupted_read_is_read_witness :
  rpc (rd init) = R_has
  /\ exists n : nat,
      (n <= 7)%nat
      /\ rpc (rd (run S_of_counter (repeat Reader n) init)) = R_ret.
Proof.
  split; [reflexivity |].
  destruct (uninterrupted_read_is_read S_of_counter init eq_refl)
    as [n [L [P _]]].
  exists n. split; [exact L | exact P].
Defined.
